(** * Scene-graph traversal events and mesh-normal visuals of vispy

    A shallow embedding of [vispy/scene/events.py] (the [SceneEvent] and
    [SceneMouseEvent] classes) and of the constructor of
    [vispy/visuals/mesh_normals.py], followed by the properties of the
    traversal stacks, of the path resolver [_node_path] and of
    [node_transform].

    Python objects are modelled by their identity: a node is the number
    [id(node)], and its attributes are read from a scene graph.  Methods
    that mutate the event are state transformers that always give back the
    event, also when they raise: a Python exception does not undo the
    assignments made before it. *)

From Stdlib Require Import ZArith Lia.
From stdpp Require Import base decidable option list gmap sets strings.

Local Open Scope Z_scope.
Local Open Scope nat_scope.
Set Warnings "-clear-no-such-hyp,-register-all".

(** ** Python values shared by both modules *)

(** The exceptions the two files can raise.  [RuntimeError] carries which
    of the messages of [events.py] it was raised with. *)
Inductive runtime_msg :=
  | CycleDetected (node : nat)
  | NoUniquePath (map_from map_to : nat)
  | CannotSetTransforms.

Inductive exn :=
  | RuntimeError (msg : runtime_msg)
  | IndexError
  | KeyError (key : nat)
  | ValueError
  | TypeError
  | NameError (name : string)
  | AttributeError
  | AssertionError.

Inductive result (A : Type) :=
  | Ok (a : A)
  | Raise (e : exn).
Arguments Ok {A} a.
Arguments Raise {A} e.

(** [l[i]] for a Python list and a possibly negative index. *)
Definition py_getitem {A} (l : list A) (i : Z) : result A :=
  let j := if (i <? 0)%Z then (Z.of_nat (length l) + i)%Z else i in
  if (j <? 0)%Z then Raise IndexError
  else match l !! Z.to_nat j with
       | Some x => Ok x
       | None => Raise IndexError
       end.

(** [l.index(x)]: the position of the first element equal to [x];
    [ValueError] when there is none. *)
Fixpoint py_index `{EqDecision A} (x : A) (l : list A) : result nat :=
  match l with
  | [] => Raise ValueError
  | y :: l' =>
      if decide (y = x) then Ok 0
      else match py_index x l' with
           | Ok i => Ok (S i)
           | Raise e => Raise e
           end
  end.

(** [l.pop(-1)]: the last element and the list without it. *)
Definition py_pop {A} (l : list A) : result (A * list A) :=
  match last l with
  | Some x => Ok (x, removelast l)
  | None => Raise IndexError
  end.

Module Events.

(** ** Nodes, canvas and transforms *)

(** A node is identified by [id(node)]; [is] and the default [==] of
    objects both compare identities. *)
Definition node := nat.
Definition id (n : node) : nat := n.

(** Modelled from the spec: the elementary transform type (imported from
    [..visuals.transforms], outside the sources) must support composition
    and per-element inversion.  A transform is a symbolic handle, and
    [inverse] builds the handle of its inverse; no law is assumed. *)
Inductive Transform :=
  | BaseTransform (handle : nat)
  | InverseTransform (t : Transform).

Definition inverse (t : Transform) : Transform := InverseTransform t.

(** Modelled from the spec: [TransformCache.get] (outside the sources)
    returns the composition of the given sequence, applied left to right.
    The composed transform is represented by the sequence itself, the
    cache key. *)
Definition TransformCache_get (transforms : list Transform) : list Transform :=
  transforms.

(** The attributes of a node that [events.py] reads. *)
Record Node := {
  transform : Transform;
  parents : list node;
  document : option node;
}.

(** The scene graph: the attributes of every node. *)
Definition scenegraph := node → Node.

(** The anchors a canvas exposes. *)
Record Canvas := {
  canvas_cs : node;
  buffer_cs : node;
  render_cs : node;
}.

(** ** The event *)

Record SceneEvent := {
  _canvas : Canvas;
  _stack : list node;
  _stack_ids : gset nat;
  _viewbox_stack : list node;
  _doc_stack : list node;
}.

(** [SceneEvent.__init__]: all stacks start empty. *)
Definition SceneEvent_init (canvas : Canvas) : SceneEvent :=
  {| _canvas := canvas; _stack := []; _stack_ids := ∅;
     _viewbox_stack := []; _doc_stack := [] |}.

Definition set_stack (l : list node) (s : SceneEvent) : SceneEvent :=
  {| _canvas := _canvas s; _stack := l; _stack_ids := _stack_ids s;
     _viewbox_stack := _viewbox_stack s; _doc_stack := _doc_stack s |}.
Definition set_stack_ids (i : gset nat) (s : SceneEvent) : SceneEvent :=
  {| _canvas := _canvas s; _stack := _stack s; _stack_ids := i;
     _viewbox_stack := _viewbox_stack s; _doc_stack := _doc_stack s |}.
Definition set_viewbox_stack (l : list node) (s : SceneEvent) : SceneEvent :=
  {| _canvas := _canvas s; _stack := _stack s; _stack_ids := _stack_ids s;
     _viewbox_stack := l; _doc_stack := _doc_stack s |}.
Definition set_doc_stack (l : list node) (s : SceneEvent) : SceneEvent :=
  {| _canvas := _canvas s; _stack := _stack s; _stack_ids := _stack_ids s;
     _viewbox_stack := _viewbox_stack s; _doc_stack := l |}.

(** ** Methods as state transformers

    A method takes the event and gives back its outcome together with the
    event as the method left it. *)
Definition M (A : Type) : Type := SceneEvent → result A * SceneEvent.

Definition ret {A} (a : A) : M A := λ s, (Ok a, s).
Definition raise {A} (e : exn) : M A := λ s, (Raise e, s).
Definition bind {A B} (m : M A) (k : A → M B) : M B :=
  λ s, match m s with
       | (Ok a, s') => k a s'
       | (Raise e, s') => (Raise e, s')
       end.
Definition gets {A} (f : SceneEvent → A) : M A := λ s, (Ok (f s), s).
Definition modify (f : SceneEvent → SceneEvent) : M unit := λ s, (Ok tt, f s).
Definition lift {A} (r : result A) : M A := λ s, (r, s).

Notation "'let*' x ':=' m 'in' k" := (bind m (λ x, k))
  (at level 10, x name, m at level 200, k at level 200).
Notation "m '>>' k" := (bind m (λ _, k))
  (at level 100, k at level 200, right associativity).

(** [self._doc_stack.append(doc)] *)
Definition push_document (doc : node) : M unit :=
  modify (λ s, set_doc_stack (_doc_stack s ++ [doc]) s).

(** [return self._doc_stack.pop(-1)] *)
Definition pop_document : M node :=
  let* l := gets _doc_stack in
  let* p := lift (py_pop l) in
  modify (set_doc_stack (snd p)) >>
  ret (fst p).

(** [push_node]: the node is appended first, then looked up in the
    identity set. *)
Definition push_node (g : scenegraph) (n : node) : M unit :=
  modify (λ s, set_stack (_stack s ++ [n]) s) >>
  let* ids := gets _stack_ids in
  if decide (id n ∈ ids) then raise (RuntimeError (CycleDetected n))
  else
    modify (λ s, set_stack_ids (_stack_ids s ∪ {[id n]}) s) >>
    match document (g n) with
    | Some doc => push_document doc
    | None => ret tt
    end.

(** [set.remove(x)]: [KeyError] when [x] is not a member. *)
Definition stack_ids_remove (x : nat) : M unit :=
  let* ids := gets _stack_ids in
  if decide (x ∈ ids) then modify (set_stack_ids (ids ∖ {[x]}))
  else raise (KeyError x).

(** [pop_node] *)
Definition pop_node (g : scenegraph) : M node :=
  let* l := gets _stack in
  let* p := lift (py_pop l) in
  let ent := fst p in
  modify (set_stack (snd p)) >>
  stack_ids_remove (id ent) >>
  match document (g ent) with
  | Some doc =>
      let* d := pop_document in
      if decide (doc = d) then ret ent else raise AssertionError
  | None => ret ent
  end.

(** [push_viewbox] and [pop_viewbox] *)
Definition push_viewbox (viewbox : node) : M unit :=
  modify (λ s, set_viewbox_stack (_viewbox_stack s ++ [viewbox]) s).

Definition pop_viewbox : M node :=
  let* l := gets _viewbox_stack in
  let* p := lift (py_pop l) in
  modify (set_viewbox_stack (snd p)) >>
  ret (fst p).

(** The [path] property. *)
Definition path (s : SceneEvent) : list node := _stack s.

(** The [viewbox] property. *)
Definition viewbox (s : SceneEvent) : option node := last (_viewbox_stack s).

(** The [document_cs] property: the top of the document stack, else the
    canvas frame. *)
Definition document_cs (s : SceneEvent) : node :=
  match last (_doc_stack s) with
  | Some d => d
  | None => canvas_cs (_canvas s)
  end.

(** ** The path resolver *)

(** Modelled from the spec: [Node.parent] (the node class is outside the
    sources) is the single parent reference, valid only when the node has
    exactly one parent.  [_node_path] reads it only then; for any other
    node the value below is a placeholder. *)
Definition parent (g : scenegraph) (n : node) : node :=
  match parents (g n) with
  | [p] => p
  | _ => n
  end.

(** How the first loop of [_node_path] ends: by its [return path], or by
    its condition, on a node whose identity is recorded. *)
Inductive walk :=
  | Returned (path : list node)
  | OnStack (n : node) (path : list node).

(** The path the first loop has built when it ends. *)
Definition walk_path (w : walk) : list node :=
  match w with Returned p | OnStack _ p => p end.

Section Resolver.
Variable g : scenegraph.
Variable s : SceneEvent.

(** The loop [while id(node) not in self._stack_ids] of [_node_path].  It
    does not end on a cycle of unrecorded single-parent nodes, so it runs
    on fuel: one unit per evaluation of the loop condition, [None] when
    the fuel is used up. *)
Fixpoint walk_parents (fuel : nat) (end_ : node) (n : node) (path : list node)
    : option walk :=
  match fuel with
  | 0 => None
  | S fuel' =>
      if decide (id n ∈ _stack_ids s) then Some (OnStack n path)
      else if bool_decide (n = end_) || negb (length (parents (g n)) =? 1)
      then Some (Returned path)
      else
        let n := parent g n in
        walk_parents fuel' end_ n (path ++ [n])
  end.

(** The loop [while ind > -1 and path[-1] is not end] of [_node_path],
    by recursion on [ind + 1]: at [S m] the index is [m], the body
    decrements it to [m - 1] and appends [self._stack[m - 1]], which for
    [m = 0] is the Python index [-1].  The loop runs inside
    [try: ... except IndexError: pass], after which the path is returned
    as the loop left it. *)
Fixpoint copy_stack (end_ : node) (ind1 : nat) (path : list node)
    : result (list node) :=
  match ind1 with
  | 0 => Ok path
  | S m =>
      if decide (last path = Some end_) then Ok path
      else match py_getitem (_stack s) (Z.of_nat m - 1) with
           | Ok x => copy_stack end_ m (path ++ [x])
           | Raise IndexError => Ok path
           | Raise e => Raise e
           end
  end.

(** [_node_path(start, end)].  Of the two statements in the [try],
    [list.index] raises [ValueError] when the node is not in the list,
    which [except IndexError] does not catch. *)
Definition _node_path (fuel : nat) (start end_ : node)
    : option (result (list node)) :=
  match walk_parents fuel end_ start [start] with
  | None => None
  | Some (Returned path) => Some (Ok path)
  | Some (OnStack n path) =>
      if decide (last path = Some end_) then Some (Ok path)
      else match py_index n (_stack s) with
           | Ok ind => Some (copy_stack end_ (S ind) path)
           | Raise IndexError => Some (Ok path)
           | Raise e => Some (Raise e)
           end
  end.

(** The loop [for i in range(1, len(rev_path))] of [node_transform].  The
    range is fixed when the loop starts; [rev_path[i]] reads the list as
    the earlier iterations left it, and there is no [break]. *)
Fixpoint join_search (fwd_path : list node) (range : list nat)
    (rev_path : list node) (connected : bool) : result (list node * bool) :=
  match range with
  | [] => Ok (rev_path, connected)
  | i :: range' =>
      match py_getitem rev_path (Z.of_nat i) with
      | Raise e => Raise e
      | Ok x =>
          if decide (x ∈ fwd_path)
          then join_search fwd_path range' (take i rev_path) true
          else join_search fwd_path range' rev_path connected
      end
  end.

(** The sequence of transforms that [node_transform] hands to the cache. *)
Definition assemble (fwd_path rev_path : list node) : list Transform :=
  map (λ e, transform (g e)) fwd_path
  ++ map (λ e, inverse (transform (g e))) rev_path.

(** [node_transform(map_to, map_from)]; [None] stands for the Python
    default [None] of either argument. *)
Definition node_transform (fuel : nat) (map_to map_from : option node)
    : option (result (list Transform)) :=
  let map_to := default (render_cs (_canvas s)) map_to in
  match (match map_from with
         | Some n => Ok n
         | None => py_getitem (_stack s) (-1)
         end) with
  | Raise e => Some (Raise e)
  | Ok map_from =>
      match _node_path fuel map_from map_to with
      | None => None
      | Some (Raise e) => Some (Raise e)
      | Some (Ok path) =>
          let fwd_path := reverse path in
          match py_getitem fwd_path 0 with
          | Raise e => Some (Raise e)
          | Ok first =>
              if decide (first = map_to)
              then Some (Ok (TransformCache_get (assemble (drop 1 fwd_path) [])))
              else
                match py_getitem (_stack s) 0 with
                | Raise e => Some (Raise e)
                | Ok root =>
                    match _node_path fuel map_to root with
                    | None => None
                    | Some (Raise e) => Some (Raise e)
                    | Some (Ok rev_path) =>
                        match join_search fwd_path
                                (seq 1 (length rev_path - 1)) rev_path false with
                        | Raise e => Some (Raise e)
                        | Ok (rev_path, connected) =>
                            if connected
                            then Some (Ok (TransformCache_get
                                             (assemble fwd_path rev_path)))
                            else Some (Raise (RuntimeError
                                                (NoUniquePath map_from map_to)))
                        end
                    end
                end
          end
      end
  end.

End Resolver.

(** ** The derived transform properties *)

(** What a name can be bound to where the property getters run. *)
Inductive pyobj :=
  | NodeObj (n : node)
  | EventObj
  | ClassObj.

(** The names visible in the getter of [visual_to_document]: its only
    local is [self]; the module binds what it imports and the classes it
    defines.  No builtin is called [node]. *)
Definition getter_namespace (self_ : pyobj) : list (string * pyobj) :=
  [("self", self_);
   ("division", ClassObj); ("Event", ClassObj);
   ("TransformCache", ClassObj); ("TransformSystem", ClassObj);
   ("SceneEvent", ClassObj); ("SceneDrawEvent", ClassObj);
   ("SceneMouseEvent", ClassObj)]%string.

(** Loading a name: [NameError] when nothing binds it. *)
Fixpoint load_name (ns : list (string * pyobj)) (name : string) : result pyobj :=
  match ns with
  | [] => Raise (NameError name)
  | (k, v) :: ns' => if decide (k = name) then Ok v else load_name ns' name
  end.

(** The getter of [visual_to_document]:
    [return self.node_transform(map_to=self.document_cs, map_from=node)].
    The arguments are evaluated in order, [self.document_cs] first, then
    the name [node].  An object that is not a node has no [parents]. *)
Definition visual_to_document (g : scenegraph) (s : SceneEvent) (fuel : nat)
    : option (result (list Transform)) :=
  let map_to := document_cs s in
  match load_name (getter_namespace EventObj) "node" with
  | Raise e => Some (Raise e)
  | Ok (NodeObj n) => node_transform g s fuel (Some map_to) (Some n)
  | Ok _ => Some (Raise AttributeError)
  end.

(** The getters of [document_to_buffer] and [buffer_to_render]. *)
Definition document_to_buffer (g : scenegraph) (s : SceneEvent) (fuel : nat)
    : option (result (list Transform)) :=
  node_transform g s fuel (Some (buffer_cs (_canvas s))) (Some (document_cs s)).

Definition buffer_to_render (g : scenegraph) (s : SceneEvent) (fuel : nat)
    : option (result (list Transform)) :=
  node_transform g s fuel (Some (render_cs (_canvas s)))
                 (Some (buffer_cs (_canvas s))).

(** ** Mouse events *)

(** A [SceneMouseEvent] is a [SceneEvent] with the mouse event it wraps,
    known by its identity. *)
Record SceneMouseEvent := {
  mouse_event : nat;
  scene : SceneEvent;
}.

(** [SceneMouseEvent.__init__(event, canvas)] *)
Definition SceneMouseEvent_init (event : nat) (canvas : Canvas) : SceneMouseEvent :=
  {| mouse_event := event; scene := SceneEvent_init canvas |}.

(** [copy]: a new event of the same canvas, then the node stack and the
    viewbox stack are assigned copies of the original's. *)
Definition copy (self_ : SceneMouseEvent) : SceneMouseEvent :=
  let ev := SceneMouseEvent_init (mouse_event self_) (_canvas (scene self_)) in
  let ev := {| mouse_event := mouse_event ev;
               scene := set_stack (_stack (scene self_)) (scene ev) |} in
  {| mouse_event := mouse_event ev;
     scene := set_viewbox_stack (_viewbox_stack (scene self_)) (scene ev) |}.

(** ** Traversals *)

(** The public stack operations a dispatcher calls on an event. *)
Inductive op :=
  | PushNode (n : node)
  | PopNode
  | PushViewbox (v : node)
  | PopViewbox.

(** The event after one operation, whether it returned or raised. *)
Definition run_op (g : scenegraph) (s : SceneEvent) (o : op) : SceneEvent :=
  match o with
  | PushNode n => snd (push_node g n s)
  | PopNode => snd (pop_node g s)
  | PushViewbox v => snd (push_viewbox v s)
  | PopViewbox => snd (pop_viewbox s)
  end.

(** Whether one operation raised. *)
Definition op_raises (g : scenegraph) (s : SceneEvent) (o : op) : bool :=
  let raised {A} (r : result A) := match r with Ok _ => false | Raise _ => true end in
  match o with
  | PushNode n => raised (fst (push_node g n s))
  | PopNode => raised (fst (pop_node g s))
  | PushViewbox v => raised (fst (push_viewbox v s))
  | PopViewbox => raised (fst (pop_viewbox s))
  end.

Definition run_ops (g : scenegraph) (s : SceneEvent) (ops : list op) : SceneEvent :=
  foldl (run_op g) s ops.

(** The event of a traversal that went down [path], pushing each node. *)
Definition descend (g : scenegraph) (canvas : Canvas) (path : list node)
    : SceneEvent :=
  run_ops g (SceneEvent_init canvas) (PushNode <$> path).

(** The events a dispatcher can hold: a new event after any sequence of
    operations. *)
Definition reachable (g : scenegraph) (s : SceneEvent) : Prop :=
  ∃ canvas ops, s = run_ops g (SceneEvent_init canvas) ops.

(** ** Invariants of the stacks *)

(** The invariant the identity set is kept for: as many identities as
    nodes on the stack. *)
Definition stack_ids_mirror (s : SceneEvent) : Prop :=
  length (_stack s) = size (_stack_ids s).

(** Every recorded identity belongs to a node on the stack. *)
Definition ids_on_stack (s : SceneEvent) : Prop :=
  ∀ x, x ∈ _stack_ids s → x ∈ _stack s.

(** The identity set is exactly the stack, which has no node twice. *)
Definition stack_consistent (s : SceneEvent) : Prop :=
  NoDup (_stack s) ∧ _stack_ids s = list_to_set (_stack s).

(** A chain of single parents: each node's [parents] is exactly the next
    node of the chain. *)
Fixpoint parent_chain (g : scenegraph) (chain : list node) : Prop :=
  match chain with
  | x :: (y :: _) as chain' => parents (g x) = [y] ∧ parent_chain g chain'
  | _ => True
  end.

(** Where the chain [walked ++ onstk] stands with respect to the event:
    the nodes of [walked] are not recorded in the identity set; the first
    node of [onstk], if any, is recorded, and [onstk] lies on the node
    stack contiguously, in stack order (its last node lowest), with no
    earlier occurrence of its first node. *)
Definition chain_on_stack (s : SceneEvent) (walked onstk : list node) : Prop :=
  (∀ x, x ∈ walked → id x ∉ _stack_ids s) ∧
  match onstk with
  | [] => True
  | c :: _ =>
      id c ∈ _stack_ids s ∧
      ∃ below above, _stack s = below ++ reverse onstk ++ above ∧ c ∉ below
  end.

(** ** The remaining transform queries *)

(** [get_full_transform]: the transforms of the nodes on the stack, in
    stack order, handed to the cache. *)
Definition get_full_transform (g : scenegraph) (s : SceneEvent)
    : list Transform :=
  TransformCache_get (map (λ e, transform (g e)) (_stack s)).

(** The getters of [scene_transform] and [view_transform].  [scene_of]
    gives the [scene] attribute of a viewbox (the viewbox class is outside
    the sources).  The Python [None] the getters return below two
    viewboxes is [Ok None]. *)
Definition scene_transform (g : scenegraph) (scene_of : node → node)
    (s : SceneEvent) (fuel : nat) : option (result (option (list Transform))) :=
  if decide (1 < length (_viewbox_stack s)) then
    match py_getitem (_viewbox_stack s) (-1) with
    | Raise e => Some (Raise e)
    | Ok view =>
        match node_transform g s fuel (Some (scene_of view)) None with
        | None => None
        | Some (Raise e) => Some (Raise e)
        | Some (Ok tr) => Some (Ok (Some tr))
        end
    end
  else Some (Ok None).

Definition view_transform (g : scenegraph) (s : SceneEvent) (fuel : nat)
    : option (result (option (list Transform))) :=
  if decide (1 < length (_viewbox_stack s)) then
    match py_getitem (_viewbox_stack s) (-1) with
    | Raise e => Some (Raise e)
    | Ok view =>
        match node_transform g s fuel (Some view) None with
        | None => None
        | Some (Raise e) => Some (Raise e)
        | Some (Ok tr) => Some (Ok (Some tr))
        end
    end
  else Some (Ok None).

(** ** Earlier mouse events *)

(** The attributes of the wrapped mouse event that the getters
    [last_event] and [press_event] read: the identities of the mouse event
    before it and of the press that started the drag, if any.  The mouse
    event class is outside the sources. *)
Record MouseEvent := {
  MouseEvent_last_event : option nat;
  MouseEvent_press_event : option nat;
}.

(** The getter of [last_event]: [None] when the mouse event has no
    predecessor, else a copy of the event that wraps the predecessor. *)
Definition last_event (mouse : nat → MouseEvent) (self_ : SceneMouseEvent)
    : option SceneMouseEvent :=
  match MouseEvent_last_event (mouse (mouse_event self_)) with
  | None => None
  | Some last =>
      let ev := copy self_ in
      Some {| mouse_event := last; scene := scene ev |}
  end.

(** The getter of [press_event]. *)
Definition press_event (mouse : nat → MouseEvent) (self_ : SceneMouseEvent)
    : option SceneMouseEvent :=
  match MouseEvent_press_event (mouse (mouse_event self_)) with
  | None => None
  | Some press =>
      let ev := copy self_ in
      Some {| mouse_event := press; scene := scene ev |}
  end.

(** ** Sequences of operations *)

(** Whether every operation of the sequence returns, none raising. *)
Fixpoint ops_return (g : scenegraph) (s : SceneEvent) (ops : list op) : bool :=
  match ops with
  | [] => true
  | o :: ops' => negb (op_raises g s o) && ops_return g (run_op g s o) ops'
  end.

(** The documents declared by the nodes of a path, in path order. *)
Definition stack_documents (g : scenegraph) (l : list node) : list node :=
  omap (λ n, document (g n)) l.

(** The three stacks agree: the identity set is the node stack, which has
    no node twice, and the document stack holds the documents that the
    nodes on the stack declare. *)
Definition stack_aligned (g : scenegraph) (s : SceneEvent) : Prop :=
  stack_consistent s ∧ _doc_stack s = stack_documents g (_stack s).

(** ** A small scene

    The root [0], its child [1] (which declares the document [20]), and
    the two children [2] and [3] of [1].  [demo_event] is the event of a
    traversal that went down [0], [1], [2]; [demo_subtree_event] the one
    of a traversal started at [1]. *)
Definition demo_canvas : Canvas :=
  {| canvas_cs := 10; buffer_cs := 11; render_cs := 12 |}.

Definition demo_graph : scenegraph := λ n,
  match n with
  | 1 => {| transform := BaseTransform 1; parents := [0]; document := Some 20 |}
  | 2 => {| transform := BaseTransform 2; parents := [1]; document := None |}
  | 3 => {| transform := BaseTransform 3; parents := [1]; document := None |}
  | _ => {| transform := BaseTransform n; parents := []; document := None |}
  end.

Definition demo_event : SceneEvent :=
  run_ops demo_graph (SceneEvent_init demo_canvas)
          [PushNode 0; PushNode 1; PushNode 2].

Definition demo_subtree_event : SceneEvent :=
  run_ops demo_graph (SceneEvent_init demo_canvas) [PushNode 1; PushNode 2].

(** ** A diamond

    The root [0] has the children [1] and [2], and node [3] has both of
    them as parents.  [diamond_event] is the event of a traversal that
    reached [3] through [1]. *)
Definition diamond_graph : scenegraph := λ n,
  match n with
  | 1 | 2 => {| transform := BaseTransform n; parents := [0]; document := None |}
  | 3 => {| transform := BaseTransform 3; parents := [1; 2]; document := None |}
  | _ => {| transform := BaseTransform n; parents := []; document := None |}
  end.

Definition diamond_event : SceneEvent :=
  descend diamond_graph demo_canvas [0; 1; 3].

(** The frames of [demo_canvas] in a chain: the canvas frame [10] has the
    buffer frame [11] as its parent, which has the render frame [12]. *)
Definition frames_graph : scenegraph := λ n,
  {| transform := BaseTransform n;
     parents := match n with 10 => [11] | 11 => [12] | _ => [] end;
     document := None |}.

(** A node that is its own parent. *)
Definition loop_graph : scenegraph := λ n,
  {| transform := BaseTransform n; parents := [n]; document := None |}.

End Events.

Module MeshNormals.

(** ** The constructor of [MeshNormalsVisual] *)

(** The methods of [meshdata] the constructor calls; [get_vertices] with
    whether [indexed='faces'] was passed. *)
Inductive meshdata_call :=
  | get_face_normals
  | get_vertex_normals
  | get_vertices (indexed_faces : bool).

(** The values a caller can pass for [primitive] and [length_method]:
    [None], integers, strings, tuples and lists of such values, and
    [PyOther] for a value of any other type that compares unequal to
    every string and that [str] converts (a float, an instance of a
    plain class). *)
Inductive pyval :=
  | PyNone
  | PyInt (z : Z)
  | PyStr (s : string)
  | PyTuple (items : list pyval)
  | PyList (items : list pyval)
  | PyOther (ident : nat).

(** [v == s] for a string literal [s]: only the same string is equal. *)
Definition py_eq_str (v : pyval) (s : string) : bool :=
  match v with
  | PyStr t => bool_decide (t = s)
  | _ => false
  end.

(** ['... got %s' % v], a format with one conversion: a tuple on the
    right is taken for the arguments of the format, so it must have
    exactly one item, or [TypeError] is raised; any other value is the
    one argument.  The string built is left out. *)
Definition format_one (v : pyval) : result unit :=
  match v with
  | PyTuple items => if decide (length items = 1) then Ok tt else Raise TypeError
  | _ => Ok tt
  end.

Section Init.

(** The values of [length] other than [None] and of [length_scale]
    (numbers, sequences, arrays) and what the constructor does with them
    are Python's and numpy's, outside the sources; they are parameters:
    the outcome of [length *= length_scale], the lengths that the two
    methods measure on the mesh, and the outcome of the rest of the
    constructor once [length] is scaled and the vertices are fetched
    (the arithmetic that builds the segments and [LineVisual.__init__]). *)
Context {V : Type}.
Variable imul : V → V → result V.
Variable median_edge_length max_extent_length : V.
Variable finish : V → result unit.

(** [MeshNormalsVisual.__init__(meshdata, primitive, length, length_method,
    length_scale)]: the outcome and the calls made on [meshdata], in
    order.  [length] is [None] for the Python [None].  The arithmetic on
    the arrays that [meshdata] returns is taken to raise nothing, and
    [None *= length_scale] to raise [TypeError], as it does when
    [length_scale] is a number, which is what the constructor documents
    for it. *)
Definition init (primitive : pyval) (length : option V)
    (length_method : pyval) (length_scale : V)
    : result unit * list meshdata_call :=
  if negb (py_eq_str primitive "face" || py_eq_str primitive "vertex")
  then
    match format_one primitive with
    | Raise e => (Raise e, [])
    | Ok _ => (Raise ValueError, [])
    end
  else
    let calls :=
      if py_eq_str primitive "face" then [get_face_normals]
      else if py_eq_str primitive "vertex" then [get_vertex_normals]
      else [] in
    let '(length, calls) :=
      match length with
      | None =>
          if py_eq_str length_method "median_edge"
          then (Some median_edge_length, calls ++ [get_vertices true])
          else if py_eq_str length_method "max_extent"
          then (Some max_extent_length, calls ++ [get_vertices false])
          else (None, calls)
      | Some v => (Some v, calls)
      end in
    (* length *= length_scale *)
    match (match length with
           | None => Raise TypeError
           | Some v => imul v length_scale
           end) with
    | Raise e => (Raise e, calls)
    | Ok length =>
        let calls :=
          if py_eq_str primitive "face" then calls ++ [get_vertices true]
          else if py_eq_str primitive "vertex" then calls ++ [get_vertices false]
          else calls in
        (finish length, calls)
    end.

End Init.

(** ** Lengths for the examples

    A float and a list, with [*=] as Python has it between them: the
    product of two floats is a float, and no list is multiplied by a
    float or by a list. *)
Inductive demo_length :=
  | FloatLength
  | ListLength.

Definition demo_imul (a b : demo_length) : result demo_length :=
  match a, b with
  | FloatLength, FloatLength => Ok FloatLength
  | _, _ => Raise TypeError
  end.

Definition demo_finish (scaled : demo_length) : result unit := Ok tt.

End MeshNormals.

(** * Properties *)

Import Events.

(** ** Lists and Python indexing *)

Lemma py_pop_snoc {A} (l : list A) (x : A) : py_pop (l ++ [x]) = Ok (x, l).
Proof.
  unfold py_pop. rewrite last_snoc. by rewrite removelast_last.
Qed.

Lemma py_pop_nil {A} : py_pop (@nil A) = Raise IndexError.
Proof. reflexivity. Qed.

Lemma py_pop_Ok {A} (l : list A) x l' :
  py_pop l = Ok (x, l') → l = l' ++ [x].
Proof.
  destruct l as [|y l] using rev_ind; [done|].
  rewrite py_pop_snoc. by intros [= -> ->].
Qed.

Lemma py_pop_Raise {A} (l : list A) e : py_pop l = Raise e → l = [] ∧ e = IndexError.
Proof.
  destruct l as [|y l] using rev_ind.
  - by intros [= <-].
  - by rewrite py_pop_snoc.
Qed.

Lemma py_getitem_nat {A} (l : list A) (i : nat) x :
  l !! i = Some x → py_getitem l (Z.of_nat i) = Ok x.
Proof.
  intros H. unfold py_getitem.
  destruct (Z.ltb_spec (Z.of_nat i) 0); [lia|].
  destruct (Z.ltb_spec (Z.of_nat i) 0); [lia|].
  by rewrite Nat2Z.id, H.
Qed.

Lemma py_getitem_nat_None {A} (l : list A) (i : nat) :
  l !! i = None → py_getitem l (Z.of_nat i) = Raise IndexError.
Proof.
  intros H. unfold py_getitem.
  destruct (Z.ltb_spec (Z.of_nat i) 0); [lia|].
  destruct (Z.ltb_spec (Z.of_nat i) 0); [lia|].
  by rewrite Nat2Z.id, H.
Qed.

Lemma py_index_first `{EqDecision A} (x : A) (pre post : list A) :
  x ∉ pre → py_index x (pre ++ x :: post) = Ok (length pre).
Proof.
  induction pre as [|y pre IH]; simpl; intros Hx.
  - by rewrite decide_True.
  - rewrite decide_False by set_solver. rewrite IH; [done | set_solver].
Qed.

Lemma py_index_absent `{EqDecision A} (x : A) (l : list A) :
  x ∉ l → py_index x l = Raise ValueError.
Proof.
  induction l as [|y l IH]; simpl; intros Hx; [done|].
  rewrite decide_False by set_solver. rewrite IH; [done | set_solver].
Qed.

(** ** What each stack operation does *)

Lemma push_node_new g n s :
  id n ∉ _stack_ids s →
  push_node g n s =
    (Ok tt,
     {| _canvas := _canvas s; _stack := _stack s ++ [n];
        _stack_ids := _stack_ids s ∪ {[id n]};
        _viewbox_stack := _viewbox_stack s;
        _doc_stack := match document (g n) with
                      | Some doc => _doc_stack s ++ [doc]
                      | None => _doc_stack s
                      end |}).
Proof.
  intros Hn. unfold push_node, bind, modify, gets; simpl.
  rewrite decide_False by done. simpl.
  by destruct (document (g n)).
Qed.

Lemma push_node_recorded g n s :
  id n ∈ _stack_ids s →
  push_node g n s =
    (Raise (RuntimeError (CycleDetected n)), set_stack (_stack s ++ [n]) s).
Proof.
  intros Hn. unfold push_node, bind, modify, gets; simpl.
  by rewrite decide_True.
Qed.

Lemma pop_node_empty g s :
  _stack s = [] → pop_node g s = (Raise IndexError, s).
Proof.
  intros H. unfold pop_node, bind, gets, lift; simpl. by rewrite H.
Qed.

Lemma pop_node_unrecorded g s l ent :
  _stack s = l ++ [ent] → id ent ∉ _stack_ids s →
  pop_node g s = (Raise (KeyError (id ent)), set_stack l s).
Proof.
  intros H Hent. unfold pop_node, bind, gets, lift, modify; simpl.
  rewrite H, py_pop_snoc; simpl.
  unfold stack_ids_remove, bind, gets; simpl.
  by rewrite decide_False.
Qed.

Lemma pop_node_pushed g n s :
  id n ∉ _stack_ids s →
  pop_node g (snd (push_node g n s)) = (Ok n, s).
Proof.
  intros Hn. rewrite push_node_new by done; simpl.
  unfold pop_node, bind, gets, lift, modify; simpl.
  rewrite py_pop_snoc; simpl.
  unfold stack_ids_remove, bind, gets, modify; simpl.
  rewrite decide_True by set_solver. simpl.
  assert ((_stack_ids s ∪ {[id n]}) ∖ {[id n]} = _stack_ids s) as Hids
    by set_solver.
  destruct s as [cv st ids vb ds]; simpl in *.
  destruct (document (g n)) as [doc|]; simpl.
  - unfold pop_document, bind, gets, lift, modify; simpl.
    rewrite py_pop_snoc; simpl. rewrite decide_True by done.
    unfold ret, set_doc_stack, set_stack_ids, set_stack; simpl. by rewrite Hids.
  - unfold ret, set_stack_ids, set_stack; simpl. by rewrite Hids.
Qed.

(** ** The identity set never runs ahead of the stack *)

Lemma run_op_ids_on_stack g s o : ids_on_stack s → ids_on_stack (run_op g s o).
Proof.
  intros Hs. destruct o as [n| |v|]; simpl.
  - destruct (decide (id n ∈ _stack_ids s)) as [Hn|Hn].
    + rewrite push_node_recorded by done. intros x Hx; simpl in *.
      apply Hs in Hx. set_solver.
    + rewrite push_node_new by done. intros x Hx; simpl in *.
      apply elem_of_union in Hx as [Hx|Hx]; [apply Hs in Hx|]; set_solver.
  - unfold pop_node, bind, gets, lift, modify; simpl.
    destruct (py_pop (_stack s)) as [[ent l]|e] eqn:Hpop; simpl; [|done].
    apply py_pop_Ok in Hpop.
    assert (∀ x, x ∈ _stack_ids s → x ≠ ent → x ∈ l) as Hl.
    { intros x Hx Hne. apply Hs in Hx. rewrite Hpop in Hx. set_solver. }
    unfold stack_ids_remove, bind, gets, modify; simpl.
    destruct (decide (id ent ∈ _stack_ids s)); simpl.
    + assert (ids_on_stack (set_stack_ids (_stack_ids s ∖ {[id ent]}) (set_stack l s))).
      { intros x Hx; simpl in *. apply Hl; set_solver. }
      destruct (document (g ent)); simpl; [|done].
      unfold pop_document, bind, gets, lift, modify; simpl.
      destruct (py_pop (_doc_stack s)) as [[d ds]|e']; simpl; [|done].
      by destruct (decide _).
    + intros x Hx; simpl in *. apply Hl; [done|]. unfold id in *. congruence.
  - done.
  - unfold pop_viewbox, bind, gets, lift, modify; simpl.
    by destruct (py_pop (_viewbox_stack s)) as [[d ds]|e].
Qed.

Lemma reachable_ids_on_stack g s : reachable g s → ids_on_stack s.
Proof.
  intros (cv & ops & ->). unfold run_ops.
  induction ops as [|o ops IH] using rev_ind.
  - intros x Hx. simpl in Hx. set_solver.
  - rewrite foldl_app; simpl. by apply run_op_ids_on_stack.
Qed.

(** ** The mirror invariant *)

Lemma stack_consistent_mirror s : stack_consistent s → stack_ids_mirror s.
Proof.
  intros [Hnd Hids]. unfold stack_ids_mirror. rewrite Hids.
  by rewrite size_list_to_set.
Qed.

(** Whenever an operation returns, it keeps a consistent event consistent. *)
Lemma run_op_consistent g s o :
  stack_consistent s → op_raises g s o = false → stack_consistent (run_op g s o).
Proof.
  intros [Hnd Hids] Hok. destruct o as [n| |v|]; simpl in *.
  - destruct (decide (id n ∈ _stack_ids s)) as [Hn|Hn].
    + by rewrite push_node_recorded in Hok.
    + rewrite push_node_new by done; split; simpl.
      * rewrite Hids in Hn. apply NoDup_app; repeat split; try done.
        -- intros x Hx Hx'. unfold id in *. set_solver.
        -- apply NoDup_singleton.
      * rewrite list_to_set_app_L, Hids. unfold id. set_solver.
  - revert Hok. unfold pop_node, bind, gets, lift, modify; simpl.
    destruct (py_pop (_stack s)) as [[ent l]|e] eqn:Hpop; simpl; [|done].
    apply py_pop_Ok in Hpop. rewrite Hpop in Hnd, Hids.
    apply NoDup_app in Hnd as (Hl & Hent & _).
    unfold stack_ids_remove, bind, gets, modify; simpl.
    destruct (decide (id ent ∈ _stack_ids s)); simpl; [|done].
    assert (stack_consistent (set_stack_ids (_stack_ids s ∖ {[id ent]}) (set_stack l s))).
    { split; simpl; [done|]. rewrite Hids, list_to_set_app_L. unfold id.
      assert (ent ∉ l) by (intros ?; eapply Hent; [done|set_solver]).
      set_solver. }
    destruct (document (g ent)); simpl; [|done].
    unfold pop_document, bind, gets, lift, modify; simpl.
    destruct (py_pop (_doc_stack s)) as [[d ds]|e']; simpl; [|done].
    by destruct (decide _).
  - done.
  - unfold pop_viewbox, bind, gets, lift, modify in *; simpl in *.
    by destruct (py_pop (_viewbox_stack s)) as [[d ds]|e].
Qed.

(** ** Pushing a node that is already on the stack *)

(** C1: on [demo_event], whose stack is [0; 1; 2], pushing node [1] again
    raises the cycle error; the identity set and the document stack are as
    before, but the node stack is not: the node has been appended, and the
    stack is now [0; 1; 2; 1]. *)
Theorem push_node_cycle_appends :
  let r := push_node demo_graph 1 demo_event in
  _stack demo_event = [0; 1; 2] ∧
  id 1 ∈ _stack_ids demo_event ∧
  fst r = Raise (RuntimeError (CycleDetected 1)) ∧
  _stack (snd r) = [0; 1; 2; 1] ∧
  _stack (snd r) ≠ _stack demo_event ∧
  _stack_ids (snd r) = _stack_ids demo_event ∧
  _doc_stack (snd r) = _doc_stack demo_event.
Proof.
  assert (id 1 ∈ _stack_ids demo_event) as Hin by (vm_compute; set_solver).
  cbv zeta. rewrite push_node_recorded by done. simpl.
  repeat split; done.
Qed.

(** ** The mirror invariant on the error path *)

(** C4: the event obtained by pushing node [1] on a new event satisfies
    the mirror invariant (one node, one identity); pushing node [1] again
    raises, and afterwards the stack holds two nodes while the identity
    set holds one: the invariant is lost on the error path of
    [push_node]. *)
Theorem push_node_error_breaks_mirror :
  let s := run_ops demo_graph (SceneEvent_init demo_canvas) [PushNode 1] in
  stack_consistent s ∧ stack_ids_mirror s ∧
  op_raises demo_graph s (PushNode 1) = true ∧
  length (_stack (run_op demo_graph s (PushNode 1))) = 2 ∧
  size (_stack_ids (run_op demo_graph s (PushNode 1))) = 1 ∧
  ¬ stack_ids_mirror (run_op demo_graph s (PushNode 1)).
Proof.
  cbv zeta.
  assert (stack_consistent
            (run_ops demo_graph (SceneEvent_init demo_canvas) [PushNode 1])) as Hc.
  { split; [vm_compute; apply NoDup_singleton | by vm_compute]. }
  split; [done|]. split; [by apply stack_consistent_mirror|].
  unfold stack_ids_mirror. by vm_compute.
Qed.

(** ** The [visual_to_document] property *)

(** C6: reading [visual_to_document] raises [NameError] for the name
    [node], on every event and every scene graph, whatever is on the node
    stack: the getter never gets as far as calling [node_transform]. *)
Theorem visual_to_document_raises g s fuel :
  visual_to_document g s fuel = Some (Raise (NameError "node")).
Proof. reflexivity. Qed.

(** ** Push then pop *)

(** C7: for a node that is not on the stack of an event whose recorded
    identities all belong to nodes on the stack (as they do in every
    reachable event), [push_node] returns, the [pop_node] that follows
    returns the node pushed, and the event is as before the push: the
    path, the identity set, the viewbox stack and the document stack, the
    last also when the node has a document. *)
Theorem push_pop_node_restores g s n :
  ids_on_stack s → n ∉ _stack s →
  fst (push_node g n s) = Ok tt ∧
  pop_node g (snd (push_node g n s)) = (Ok n, s) ∧
  path (snd (pop_node g (snd (push_node g n s)))) = path s ∧
  _doc_stack (snd (pop_node g (snd (push_node g n s)))) = _doc_stack s.
Proof.
  intros Hs Hn.
  assert (id n ∉ _stack_ids s) as Hid by (intros H; by apply Hs in H).
  rewrite pop_node_pushed by done. rewrite push_node_new by done. done.
Qed.

(** Pushing node [1], which has the document [20], above node [0], and
    popping it again. *)
Lemma push_pop_node_restores_witness :
  let s := {| _canvas := demo_canvas; _stack := [0]; _stack_ids := {[0]};
              _viewbox_stack := []; _doc_stack := [] |} in
  fst (push_node demo_graph 1 s) = Ok tt ∧
  pop_node demo_graph (snd (push_node demo_graph 1 s)) = (Ok 1, s) ∧
  path (snd (pop_node demo_graph (snd (push_node demo_graph 1 s)))) = path s ∧
  _doc_stack (snd (pop_node demo_graph (snd (push_node demo_graph 1 s))))
    = _doc_stack s.
Proof.
  apply (push_pop_node_restores demo_graph
           {| _canvas := demo_canvas; _stack := [0]; _stack_ids := {[0]};
              _viewbox_stack := []; _doc_stack := [] |} 1).
  - intros x Hx. simpl in *. set_solver.
  - simpl. set_solver.
Defined.

(** ** Source equal to target *)

(** C8: for every node [A], on every event (whether or not [A] is on the
    node stack) and every scene graph, [node_transform(A, A)] returns the
    empty chain of transforms; one unit of fuel is enough. *)
Theorem node_transform_same_node g s fuel A :
  node_transform g s (S fuel) (Some A) (Some A) = Some (Ok []).
Proof.
  unfold node_transform, _node_path; simpl.
  destruct (decide (id A ∈ _stack_ids s)); simpl.
  - rewrite decide_True by done. simpl. by rewrite decide_True.
  - rewrite bool_decide_eq_true_2 by done. simpl. by rewrite decide_True.
Qed.

(** ** Copies of mouse events *)

(** C9: for a mouse event whose node stack is not empty, with [top] its
    last node, the copy has the same node stack and viewbox stack, an
    empty identity set and an empty document stack.  So on the copy,
    [push_node] of a node [n] that is on the copied path returns without
    the cycle error (recording [n] and appending it to the stack) and
    [pop_node] raises [KeyError] for the identity of [top], having removed
    [top] from the stack. *)
Theorem copy_loses_identities g ev n top :
  _stack (scene ev) ≠ [] → last (_stack (scene ev)) = Some top →
  n ∈ _stack (scene ev) →
  _stack (scene (copy ev)) = _stack (scene ev) ∧
  _viewbox_stack (scene (copy ev)) = _viewbox_stack (scene ev) ∧
  _stack_ids (scene (copy ev)) = ∅ ∧
  _doc_stack (scene (copy ev)) = [] ∧
  fst (push_node g n (scene (copy ev))) = Ok tt ∧
  _stack (snd (push_node g n (scene (copy ev)))) = _stack (scene ev) ++ [n] ∧
  _stack_ids (snd (push_node g n (scene (copy ev)))) = {[id n]} ∧
  fst (pop_node g (scene (copy ev))) = Raise (KeyError (id top)) ∧
  _stack (snd (pop_node g (scene (copy ev)))) = removelast (_stack (scene ev)) ∧
  _stack_ids (snd (pop_node g (scene (copy ev)))) = ∅.
Proof.
  intros Hne Htop Hn.
  assert (id n ∉ _stack_ids (scene (copy ev))) as Hid by (simpl; set_solver).
  rewrite push_node_new by done.
  destruct (_stack (scene ev)) as [|x l Hl] eqn:Hst using rev_ind; [done|].
  rewrite last_snoc in Htop. injection Htop as ->.
  rewrite (pop_node_unrecorded g _ l top) by (simpl; first [done | set_solver]).
  simpl. rewrite ?Hst, ?removelast_last.
  repeat split; try done. set_solver.
Qed.

(** The copy of a mouse event taken at node [2] of the small scene. *)
Lemma copy_loses_identities_witness :
  let ev := {| mouse_event := 7; scene := demo_event |} in
  _stack (scene (copy ev)) = [0; 1; 2] ∧
  _stack_ids (scene (copy ev)) = ∅ ∧
  fst (push_node demo_graph 1 (scene (copy ev))) = Ok tt ∧
  fst (pop_node demo_graph (scene (copy ev))) = Raise (KeyError 2).
Proof.
  destruct (copy_loses_identities demo_graph
              {| mouse_event := 7; scene := demo_event |} 1 2)
    as (H1 & _ & H3 & _ & H5 & _ & _ & H8 & _).
  - by vm_compute.
  - reflexivity.
  - vm_compute. set_solver.
  - exact (conj H1 (conj H3 (conj H5 H8))).
Defined.

(** ** The constructor of the mesh-normals visual *)

Section MeshNormalsGuard.
Context {V : Type} (imul : V → V → result V) (median max_extent : V).
Context (finish : V → result unit).

(** Every [primitive] other than the strings ['face'] and ['vertex'] is
    stopped by the first statement: whatever the other arguments, the
    constructor raises, [ValueError] or the [TypeError] of the message
    format, and has called no method of [meshdata]. *)
Lemma init_invalid_primitive_calls_nothing primitive length length_method length_scale :
  primitive ≠ MeshNormals.PyStr "face" → primitive ≠ MeshNormals.PyStr "vertex" →
  snd (MeshNormals.init imul median max_extent finish
         primitive length length_method length_scale) = [] ∧
  (fst (MeshNormals.init imul median max_extent finish
          primitive length length_method length_scale) = Raise ValueError ∨
   fst (MeshNormals.init imul median max_extent finish
          primitive length length_method length_scale) = Raise TypeError).
Proof.
  intros Hf Hv. unfold MeshNormals.init.
  assert (MeshNormals.py_eq_str primitive "face" = false) as ->.
  { destruct primitive; try done. simpl. apply bool_decide_eq_false_2. congruence. }
  assert (MeshNormals.py_eq_str primitive "vertex" = false) as ->.
  { destruct primitive; try done. simpl. apply bool_decide_eq_false_2. congruence. }
  simpl. destruct (MeshNormals.format_one primitive) as [|e] eqn:E.
  - split; [done | by left].
  - split; [done|]. right. destruct primitive; try done. simpl in E.
    destruct (decide _); [done|]. by injection E as <-.
Qed.

(** The error is [ValueError] unless [primitive] is a tuple that does not
    have exactly one item. *)
Lemma init_rejects_primitive primitive length_ length_method length_scale :
  primitive ≠ MeshNormals.PyStr "face" → primitive ≠ MeshNormals.PyStr "vertex" →
  (∀ items, primitive = MeshNormals.PyTuple items → length items = 1) →
  MeshNormals.init imul median max_extent finish
    primitive length_ length_method length_scale = (Raise ValueError, []).
Proof.
  intros Hf Hv Htuple. unfold MeshNormals.init.
  assert (MeshNormals.py_eq_str primitive "face" = false) as ->.
  { destruct primitive; try done. simpl. apply bool_decide_eq_false_2. congruence. }
  assert (MeshNormals.py_eq_str primitive "vertex" = false) as ->.
  { destruct primitive; try done. simpl. apply bool_decide_eq_false_2. congruence. }
  simpl. destruct primitive; try done. simpl.
  by rewrite decide_True by (by apply Htuple).
Qed.

(** A tuple that does not have exactly one item gets [TypeError]. *)
Lemma init_tuple_primitive items length_ length_method length_scale :
  length items ≠ 1 →
  MeshNormals.init imul median max_extent finish
    (MeshNormals.PyTuple items) length_ length_method length_scale
  = (Raise TypeError, []).
Proof.
  intros Hlen. unfold MeshNormals.init. simpl. by rewrite decide_False.
Qed.

End MeshNormalsGuard.

Lemma init_rejects_primitive_witness :
  MeshNormals.init MeshNormals.demo_imul MeshNormals.FloatLength
    MeshNormals.FloatLength MeshNormals.demo_finish
    (MeshNormals.PyStr "edge") None (MeshNormals.PyStr "median_edge")
    MeshNormals.FloatLength
  = (Raise ValueError, []).
Proof.
  apply (init_rejects_primitive MeshNormals.demo_imul MeshNormals.FloatLength
           MeshNormals.FloatLength MeshNormals.demo_finish
           (MeshNormals.PyStr "edge")); done.
Defined.

(** C10: for the primitive [('a', 'b')], whatever the other arguments and
    whatever the arithmetic of the lengths, the membership test of the
    first statement rejects the primitive, but the message of the
    [ValueError] is built with ['... got %s' % primitive], which takes
    the tuple for the arguments of the format: the constructor raises
    [TypeError], not [ValueError].  No method of [meshdata] has been
    called. *)
Theorem init_tuple_primitive_raises_TypeError
    {V : Type} (imul : V → V → result V) (median max_extent : V)
    (finish : V → result unit) length length_method length_scale :
  MeshNormals.init imul median max_extent finish
    (MeshNormals.PyTuple [MeshNormals.PyStr "a"; MeshNormals.PyStr "b"])
    length length_method length_scale
  = (Raise TypeError, []).
Proof. reflexivity. Qed.

(** ** The join-point search of [node_transform] *)

Section JoinSearch.
Variable fwd_path : list node.

(** Indices whose elements are not on the forward path change nothing. *)
Lemma join_search_skip k : ∀ a rest rev_path connected,
  a + k ≤ length rev_path →
  (∀ j x, a ≤ j < a + k → rev_path !! j = Some x → x ∉ fwd_path) →
  join_search fwd_path (seq a k ++ rest) rev_path connected
  = join_search fwd_path rest rev_path connected.
Proof.
  induction k as [|k IH]; intros a rest rev_path connected Hlen Hno; [done|].
  simpl. destruct (lookup_lt_is_Some_2 rev_path a) as [x Hx]; [lia|].
  rewrite (py_getitem_nat _ _ _ Hx).
  rewrite decide_False by (apply (Hno a); [lia | done]).
  apply IH; [lia|]. intros j y Hj. apply Hno. lia.
Qed.

(** No element from index 1 on is on the forward path: the search ends
    unconnected. *)
Lemma join_search_none rev_path :
  (∀ j x, 1 ≤ j → rev_path !! j = Some x → x ∉ fwd_path) →
  join_search fwd_path (seq 1 (length rev_path - 1)) rev_path false
  = Ok (rev_path, false).
Proof.
  intros Hno. destruct rev_path as [|x0 l]; [done|].
  rewrite <- (app_nil_r (seq _ _)). rewrite join_search_skip; [done|simpl; lia|].
  intros j x Hj. apply Hno. lia.
Qed.

(** The first element on the forward path is the last of [rev_path]: the
    search returns [rev_path] without it. *)
Lemma join_search_last init x :
  init ≠ [] → x ∈ fwd_path →
  (∀ j y, 1 ≤ j → init !! j = Some y → y ∉ fwd_path) →
  join_search fwd_path (seq 1 (length (init ++ [x]) - 1)) (init ++ [x]) false
  = Ok (init, true).
Proof.
  intros Hne Hx Hno. rewrite length_app; simpl.
  replace (length init + 1 - 1) with ((length init - 1) + 1)
    by (destruct init; [done|simpl; lia]).
  rewrite seq_app. rewrite join_search_skip.
  - simpl. replace (S (length init - 1)) with (length init)
      by (destruct init; [done|simpl; lia]).
    rewrite (py_getitem_nat _ _ x) by (by apply list_lookup_middle).
    rewrite decide_True by done. by rewrite take_app_length.
  - rewrite length_app; simpl. lia.
  - intros j y Hj Hy. apply (Hno j); [lia|].
    by rewrite lookup_app_l in Hy by (destruct init; [done|simpl in *; lia]).
Qed.

(** The first element on the forward path is not the last of [rev_path]:
    the list is cut there, the loop goes on and its next read is out of
    range. *)
Lemma join_search_not_last init x y rest :
  init ≠ [] → x ∈ fwd_path →
  (∀ j z, 1 ≤ j → init !! j = Some z → z ∉ fwd_path) →
  join_search fwd_path (seq 1 (length (init ++ x :: y :: rest) - 1))
              (init ++ x :: y :: rest) false
  = Raise IndexError.
Proof.
  intros Hne Hx Hno. rewrite length_app; simpl.
  replace (length init + S (S (length rest)) - 1)
    with ((length init - 1) + (S (S (length rest)) ))
    by (destruct init; [done|simpl; lia]).
  rewrite seq_app. rewrite join_search_skip.
  - simpl. replace (S (length init - 1)) with (length init)
      by (destruct init; [done|simpl; lia]).
    rewrite (py_getitem_nat _ _ x) by (by apply list_lookup_middle).
    rewrite decide_True by done. rewrite take_app_length.
    rewrite (py_getitem_nat_None init (S (length init))); [done|].
    apply lookup_ge_None_2. lia.
  - rewrite length_app; simpl. lia.
  - intros j z Hj Hz. apply (Hno j); [lia|].
    by rewrite lookup_app_l in Hz by (destruct init; [done|simpl in *; lia]).
Qed.

End JoinSearch.

(** C2: on [demo_event] (stack [0; 1; 2]), [node_transform] from node [2]
    to node [3], a child of node [1] that is not on the stack: the
    reversed forward path [2; 0; 1; 2] does not start at [3]; [rev_path]
    is [3; 1; 0], whose first element on the forward path is at index 1;
    the search cuts [rev_path] to [3], goes on to index 2 and
    [IndexError] escapes [node_transform]. *)
Theorem node_transform_join_raises_IndexError :
  _stack demo_event = [0; 1; 2] ∧
  parents (demo_graph 3) = [1] ∧
  _node_path demo_graph demo_event 4 2 3 = Some (Ok [2; 1; 0; 2]) ∧
  reverse [2; 1; 0; 2] = [2; 0; 1; 2] ∧
  _node_path demo_graph demo_event 4 3 0 = Some (Ok [3; 1; 0]) ∧
  join_search [2; 0; 1; 2] (seq 1 2) [3; 1; 0] false = Raise IndexError ∧
  node_transform demo_graph demo_event 4 (Some 3) (Some 2)
    = Some (Raise IndexError).
Proof. repeat split; by vm_compute. Qed.

(** ** Running off the bottom of the stack *)

Lemma py_getitem_top {A} (l : list A) (top : A) :
  last l = Some top → py_getitem l (-1) = Ok top.
Proof.
  destruct l as [|x l _] using rev_ind; [done|].
  rewrite last_snoc. intros [= ->]. unfold py_getitem.
  rewrite length_app; simpl.
  destruct (Z.ltb_spec (-1) 0); [|lia].
  destruct (Z.ltb_spec (Z.of_nat (length l + 1) + -1) 0); [lia|].
  replace (Z.to_nat (Z.of_nat (length l + 1) + -1)) with (length l) by lia.
  by rewrite list_lookup_middle.
Qed.

Section NodePath.
Variable g : scenegraph.
Variable s : SceneEvent.
Variable end_ : node.

(** An unrecorded node that is not [end] and does not have exactly one
    parent ends the walk: the path is returned as it stands. *)
Lemma node_path_stops_at_branch fuel n :
  id n ∉ _stack_ids s → n ≠ end_ → length (parents (g n)) ≠ 1 →
  _node_path g s (S fuel) n end_ = Some (Ok [n]).
Proof.
  intros Hn Hne Hpar. unfold _node_path; simpl.
  rewrite decide_False by done. rewrite bool_decide_eq_false_2 by done.
  by destruct (parents (g n)) as [|p [|q l]].
Qed.

(** A recorded node that is not on the stack: [list.index] raises
    [ValueError], which [except IndexError] lets through.  No event
    reachable by the stack operations is in this state
    ([reachable_ids_on_stack]). *)
Lemma node_path_recorded_off_stack fuel n :
  id n ∈ _stack_ids s → n ∉ _stack s → n ≠ end_ →
  _node_path g s (S fuel) n end_ = Some (Raise ValueError).
Proof.
  intros Hn Hoff Hne. unfold _node_path; simpl.
  rewrite decide_True by done. simpl.
  rewrite decide_False by congruence.
  by rewrite py_index_absent.
Qed.

(** When [end] is not met on the way down from the position found, the
    copy loop appends every node below that position and then the top of
    the stack. *)
Lemma copy_stack_off_bottom below : ∀ path above top,
  _stack s = below ++ above → last (_stack s) = Some top →
  end_ ∉ below → last path ≠ Some end_ →
  copy_stack s end_ (S (length below)) path
  = Ok (path ++ reverse below ++ [top]).
Proof.
  induction below as [|x below IH] using rev_ind;
    intros path above top Hst Htop Hend Hlast.
  - simpl. rewrite decide_False by done.
    change (0 - 1)%Z with (-1)%Z. by rewrite (py_getitem_top _ top).
  - cbn [copy_stack]. rewrite decide_False by done.
    replace (Z.of_nat (length (below ++ [x])) - 1)%Z
      with (Z.of_nat (length below)) by (rewrite length_app; simpl; lia).
    rewrite (py_getitem_nat _ _ x)
      by (rewrite Hst, <- app_assoc; by apply list_lookup_middle).
    replace (length (below ++ [x])) with (S (length below))
      by (rewrite length_app; simpl; lia).
    rewrite (IH (path ++ [x]) ([x] ++ above) top); try done.
    + by rewrite reverse_snoc, <- !app_assoc.
    + by rewrite Hst, <- app_assoc.
    + set_solver.
    + rewrite last_snoc. intros [= ->]. set_solver.
Qed.

(** X14: From a recorded node other than [end], when [end] is not among
    the nodes below its first position on the stack, [_node_path] returns
    the node, the nodes below it from the nearest down to the bottom of
    the stack, and then the top of the stack. *)
Lemma node_path_off_bottom fuel n below above top :
  id n ∈ _stack_ids s → n ≠ end_ →
  _stack s = below ++ n :: above → n ∉ below → end_ ∉ below →
  last (_stack s) = Some top →
  _node_path g s (S fuel) n end_ = Some (Ok (n :: reverse below ++ [top])).
Proof.
  intros Hn Hne Hst Hfirst Hend Htop. unfold _node_path; cbn -[copy_stack].
  rewrite decide_True by done. cbn -[copy_stack].
  rewrite decide_False by congruence.
  rewrite Hst at 1. rewrite py_index_first by done.
  rewrite (copy_stack_off_bottom below [n] (n :: above) top); try done.
  simpl. congruence.
Qed.

End NodePath.

(** C3: on [demo_event] (stack [0; 1; 2]), [_node_path] from node [0] to
    node [3]: node [0] is recorded and found at position 0 of the stack;
    the copy loop then reads index [-1] and appends node [2], which is at
    position 2, above the position found.  The path returned is
    [0; 2]. *)
Theorem node_path_wraps_to_top :
  _stack demo_event = [0; 1; 2] ∧
  py_index 0 (_stack demo_event) = Ok 0 ∧
  py_index 2 (_stack demo_event) = Ok 2 ∧
  py_getitem (_stack demo_event) (-1) = Ok 2 ∧
  _node_path demo_graph demo_event 4 0 3 = Some (Ok [0; 2]).
Proof. repeat split; by vm_compute. Qed.

(** ** Paths along a chain of single parents *)

Lemma parent_chain_app_l g l1 l2 :
  parent_chain g (l1 ++ l2) → parent_chain g l1.
Proof.
  induction l1 as [|x l1 IH]; [done|].
  destruct l1 as [|y l1]; [done|].
  intros [Hx Hrest]. split; [done|]. by apply IH.
Qed.

Lemma NoDup_last_ne {A} (l : list A) (x r : A) :
  NoDup (l ++ [r]) → x ∈ l → x ≠ r.
Proof.
  intros Hnd Hx ->. apply NoDup_app in Hnd as (_ & Hdis & _).
  apply (Hdis r); [done | set_solver].
Qed.

Section Chains.
Variable g : scenegraph.
Variable s : SceneEvent.
Variable end_ : node.

(** The first loop follows the chain until a recorded node. *)
Lemma walk_parents_to_recorded more : ∀ n c path fuel,
  parent_chain g (n :: more ++ [c]) →
  (∀ x, x ∈ n :: more → (id x ∉ _stack_ids s) ∧ x ≠ end_) →
  id c ∈ _stack_ids s →
  S (length more) < fuel →
  walk_parents g s fuel end_ n path = Some (OnStack c (path ++ more ++ [c])).
Proof.
  induction more as [|m more IH]; intros n c path fuel Hch Hun Hc Hfuel.
  - destruct fuel as [|[|fuel]]; [lia..|]. simpl in *.
    destruct (Hun n) as [Hn Hne]; [set_solver|].
    rewrite decide_False by done. rewrite bool_decide_eq_false_2 by done.
    unfold parent. destruct Hch as [-> _]. simpl. by rewrite decide_True.
  - destruct fuel as [|fuel]; [lia|]. simpl in *.
    destruct (Hun n) as [Hn Hne]; [set_solver|].
    rewrite decide_False by done. rewrite bool_decide_eq_false_2 by done.
    unfold parent. destruct Hch as [-> Hch]. simpl. rewrite (IH m c); try done.
    + by rewrite <- app_assoc.
    + intros x Hx. apply Hun. set_solver.
    + lia.
Qed.

(** The first loop follows a chain of unrecorded nodes up to [end]. *)
Lemma walk_parents_to_end more : ∀ n path fuel,
  parent_chain g (n :: more ++ [end_]) →
  (∀ x, x ∈ n :: more → (id x ∉ _stack_ids s) ∧ x ≠ end_) →
  id end_ ∉ _stack_ids s →
  S (length more) < fuel →
  walk_parents g s fuel end_ n path = Some (Returned (path ++ more ++ [end_])).
Proof.
  induction more as [|m more IH]; intros n path fuel Hch Hun Hc Hfuel.
  - destruct fuel as [|[|fuel]]; [lia..|]. simpl in *.
    destruct (Hun n) as [Hn Hne]; [set_solver|].
    rewrite decide_False by done. rewrite bool_decide_eq_false_2 by done.
    unfold parent. destruct Hch as [-> _]. simpl.
    rewrite decide_False by done. by rewrite bool_decide_eq_true_2.
  - destruct fuel as [|fuel]; [lia|]. simpl in *.
    destruct (Hun n) as [Hn Hne]; [set_solver|].
    rewrite decide_False by done. rewrite bool_decide_eq_false_2 by done.
    unfold parent. destruct Hch as [-> Hch]. simpl. rewrite (IH m); try done.
    + by rewrite <- app_assoc.
    + intros x Hx. apply Hun. set_solver.
    + lia.
Qed.

(** The second loop copies the part of the chain that lies on the stack,
    and stops at [end]. *)
Lemma copy_stack_chain ms : ∀ y path below above,
  _stack s = below ++ reverse ms ++ above →
  NoDup (y :: ms) → last (y :: ms) = Some end_ →
  copy_stack s end_ (S (length (below ++ reverse ms))) (path ++ [y])
  = Ok (path ++ [y] ++ ms).
Proof.
  induction ms as [|x ms IH]; intros y path below above Hst Hnd Hlast.
  - simpl in *. injection Hlast as ->. rewrite last_snoc.
    by rewrite decide_True.
  - assert (y ≠ end_) as Hy.
    { intros ->. apply NoDup_cons in Hnd as [Hnot _]. apply Hnot.
      change (last (end_ :: x :: ms)) with (last (x :: ms)) in Hlast.
      by apply last_Some_elem_of. }
    cbn [copy_stack]. rewrite last_snoc.
    rewrite decide_False by congruence.
    rewrite reverse_cons in *. rewrite <- !app_assoc in Hst.
    replace (Z.of_nat (length (below ++ reverse ms ++ [x])) - 1)%Z
      with (Z.of_nat (length (below ++ reverse ms)))
      by (rewrite !length_app; simpl; lia).
    rewrite (py_getitem_nat _ _ x).
    + replace (length (below ++ reverse ms ++ [x]))
        with (S (length (below ++ reverse ms)))
        by (rewrite !length_app; simpl; lia).
      rewrite (IH x (path ++ [y]) below ([x] ++ above)); try done.
      * by rewrite <- !app_assoc.
      * by apply NoDup_cons in Hnd as [_ ?].
    + rewrite Hst, app_assoc. by apply list_lookup_middle.
Qed.

End Chains.

(** Along a chain of single parents that stands on the event as
    [chain_on_stack] says, [_node_path] from the first node of the chain
    to its last returns the chain. *)
Lemma node_path_chain g s fuel chain walked onstk N root :
  chain = walked ++ onstk →
  head chain = Some N → last chain = Some root →
  NoDup chain → parent_chain g chain →
  chain_on_stack s walked onstk →
  length chain ≤ fuel →
  _node_path g s fuel N root = Some (Ok chain).
Proof.
  intros Hsplit Hhd Hlast Hnd Hch [Hwalked Hon] Hfuel.
  unfold _node_path.
  destruct onstk as [|c rest].
  - (* no node of the chain is recorded *)
    rewrite app_nil_r in Hsplit. subst walked.
    destruct chain as [|n chain]; [done|]. injection Hhd as ->.
    destruct chain as [|r more _] using rev_ind.
    + simpl in Hlast. injection Hlast as ->.
      destruct fuel as [|fuel]; [simpl in *; lia|]. simpl.
      rewrite decide_False by (apply Hwalked; set_solver).
      by rewrite bool_decide_eq_true_2.
    + rewrite app_comm_cons, last_snoc in Hlast. injection Hlast as ->.
      rewrite (walk_parents_to_end g s root more N [N] fuel); try done.
      * intros x Hx. split; [apply Hwalked; set_solver|].
        rewrite app_comm_cons in Hnd. by eapply NoDup_last_ne.
      * apply Hwalked. set_solver.
      * simpl in Hfuel. rewrite length_app in Hfuel. simpl in Hfuel. lia.
  - (* the walk reaches the recorded node [c] *)
    destruct Hon as (Hc & below & above & Hst & Hbelow).
    assert (c ∉ rest) as Hcrest.
    { subst chain. apply NoDup_app in Hnd as (_ & _ & Hnd).
      by apply NoDup_cons in Hnd as [? _]. }
    assert (∀ x, x ∈ walked → x ≠ root) as Hwroot.
    { intros x Hx ->. subst chain. apply NoDup_app in Hnd as (_ & Hdis & _).
      apply (Hdis root Hx). rewrite last_app in Hlast. simpl in Hlast.
      apply last_Some_elem_of.
      destruct (last (c :: rest)) eqn:E; [by simplify_eq|].
      by apply last_None in E. }
    assert (last (c :: rest) = Some root) as Hlast'.
    { subst chain. rewrite last_app in Hlast.
      destruct (last (c :: rest)) eqn:E; [done|]. by apply last_None in E. }
    assert (walk_parents g s fuel root N [N] = Some (OnStack c (walked ++ [c])))
      as ->.
    { destruct walked as [|n more].
      - subst chain. simpl in Hhd. injection Hhd as ->.
        destruct fuel as [|fuel]; [simpl in *; lia|]. simpl.
        by rewrite decide_True.
      - subst chain. simpl in Hhd. injection Hhd as ->.
        rewrite (walk_parents_to_recorded g s root more N c [N] fuel); try done.
        + replace ((N :: more) ++ c :: rest) with ((N :: more ++ [c]) ++ rest)
            in Hch by (simpl; by rewrite <- app_assoc).
          by apply parent_chain_app_l in Hch.
        + intros x Hx. split; [by apply Hwalked | by apply Hwroot].
        + simpl in Hfuel. rewrite length_app in Hfuel. simpl in Hfuel. lia. }
    rewrite last_snoc.
    destruct (decide (Some c = Some root)) as [Heq|Hne].
    + injection Heq as ->.
      destruct rest as [|r rest _] using rev_ind; [by subst chain|].
      rewrite app_comm_cons, last_snoc in Hlast'. injection Hlast' as ->.
      set_solver.
    + rewrite reverse_cons, <- app_assoc in Hst.
      rewrite Hst, app_assoc.
      change ([c] ++ above) with (c :: above).
      rewrite py_index_first by (rewrite <- elem_of_reverse in Hcrest; set_solver).
      rewrite (copy_stack_chain s root rest c walked below ([c] ++ above)).
      * by subst chain.
      * done.
      * subst chain. by apply NoDup_app in Hnd as (_ & _ & Hnd).
      * done.
Qed.

(** When the forward path reaches [map_to], the chain handed to the cache
    is made of the transforms of the nodes before it, last node first. *)
Lemma node_transform_connected g s fuel N root below :
  _node_path g s fuel N root = Some (Ok (below ++ [root])) →
  node_transform g s fuel (Some root) (Some N)
  = Some (Ok (map (λ e, transform (g e)) (reverse below))).
Proof.
  intros Hpath. unfold node_transform; simpl. rewrite Hpath.
  rewrite reverse_snoc. simpl. rewrite decide_True by done.
  unfold TransformCache_get, assemble; simpl. by rewrite app_nil_r.
Qed.

(** ** Transforms along a chain of single parents *)

(** C5, as the code has it: let [below ++ [root]] be a chain of distinct
    nodes, each having the next as its only parent, starting at [N].  On
    an event where the nodes of the chain up to the first recorded one are
    followed, from that one on, by the rest of the chain lying on the node
    stack ([chain_on_stack]), [node_transform(N, root)] returns the
    transforms of the nodes of [below] (those of [N] and of its ancestors
    below [root]), the one nearest to [root] first and that of [N] last,
    none of them inverted; the transform of [root] itself is not part of
    the chain. *)
Theorem node_transform_single_parent_chain g s fuel N root below walked onstk :
  head (below ++ [root]) = Some N →
  NoDup (below ++ [root]) →
  parent_chain g (below ++ [root]) →
  below ++ [root] = walked ++ onstk →
  chain_on_stack s walked onstk →
  length below < fuel →
  node_transform g s fuel (Some root) (Some N)
  = Some (Ok (map (λ e, transform (g e)) (reverse below))).
Proof.
  intros Hhd Hnd Hch Hsplit Hon Hfuel.
  apply node_transform_connected.
  apply (node_path_chain g s fuel _ walked onstk); try done.
  - by rewrite last_snoc.
  - rewrite length_app; simpl. lia.
Qed.

(** From node [3], which the traversal has not visited, to the root [0]:
    the walk follows the parent of [3] to node [1], which is recorded,
    and then the stack down to [0]. *)
Lemma node_transform_single_parent_chain_witness :
  node_transform demo_graph demo_event 3 (Some 0) (Some 3)
  = Some (Ok [BaseTransform 1; BaseTransform 3]).
Proof.
  apply (node_transform_single_parent_chain demo_graph demo_event 3 3 0
           [3; 1] [3] [1; 0]).
  - reflexivity.
  - repeat constructor; set_solver.
  - by simpl.
  - reflexivity.
  - split.
    + intros x Hx. vm_compute. set_solver.
    + split; [vm_compute; set_solver|].
      exists [], [2]. split; [reflexivity | set_solver].
  - simpl. lia.
Defined.

(** C5 as stated fails: node [2] has the single-parent chain [2], [1],
    [0] up to the root [0], which has no parent.  On the event of a
    traversal that started at node [1] (stack [1; 2]),
    [node_transform(2, 0)] raises the no-path error instead of returning
    a composition. *)
Lemma node_transform_chain_above_stack_raises :
  parent_chain demo_graph [2; 1; 0] ∧
  parents (demo_graph 0) = [] ∧
  _stack demo_subtree_event = [1; 2] ∧
  stack_consistent demo_subtree_event ∧
  node_transform demo_graph demo_subtree_event 4 (Some 0) (Some 2)
  = Some (Raise (RuntimeError (NoUniquePath 2 0))).
Proof.
  repeat split; try by vm_compute.
  vm_compute. repeat constructor; set_solver.
Qed.

(** ** Transforms during a traversal from the root *)

Lemma descend_stack g canvas path :
  NoDup path →
  _stack (descend g canvas path) = path ∧
  _stack_ids (descend g canvas path) = list_to_set path.
Proof.
  unfold descend, run_ops.
  induction path as [|x path IH] using rev_ind; intros Hnd; [done|].
  apply NoDup_app in Hnd as (Hnd & Hdis & _).
  destruct (IH Hnd) as [Hst Hids].
  rewrite fmap_app, foldl_app; simpl.
  rewrite push_node_new.
  - simpl. rewrite Hst, Hids, list_to_set_app_L. split; [done|].
    unfold id. set_solver.
  - rewrite Hids. unfold id. intros Hx%elem_of_list_to_set.
    apply (Hdis x Hx). set_solver.
Qed.

Lemma descend_reachable g canvas path : reachable g (descend g canvas path).
Proof. by exists canvas, (PushNode <$> path). Qed.

(** A traversal that started at [root] and went down the chain as far as
    its [j]-th node stands on the chain as [chain_on_stack] requires. *)
Lemma descend_chain_on_stack g canvas chain j :
  NoDup chain →
  chain_on_stack (descend g canvas (reverse (drop j chain)))
                 (take j chain) (drop j chain).
Proof.
  intros Hnd.
  assert (NoDup (reverse (drop j chain))) as Hrev.
  { rewrite reverse_Permutation. rewrite <- (take_drop j chain) in Hnd.
    by apply NoDup_app in Hnd as (_ & _ & ?). }
  destruct (descend_stack g canvas _ Hrev) as [Hst Hids].
  split.
  - intros x Hx. rewrite Hids. unfold id.
    rewrite elem_of_list_to_set, elem_of_reverse.
    rewrite <- (take_drop j chain) in Hnd.
    apply NoDup_app in Hnd as (_ & Hdis & _). by apply Hdis.
  - destruct (drop j chain) as [|c rest] eqn:Hdrop; [done|].
    split.
    + rewrite Hids. unfold id. rewrite elem_of_list_to_set, elem_of_reverse.
      set_solver.
    + exists [], []. rewrite app_nil_r. split; [done | set_solver].
Qed.

(** X30: During a traversal that started at [root] and has gone down [N]'s
    chain of single parents to any depth (not at all, part of the way, or
    down to [N]), [node_transform(N, root)] is the chain of the transforms
    of [N] and of its ancestors below [root], from the node nearest to
    [root] down to [N]. *)
Corollary node_transform_during_traversal g canvas fuel N root below j :
  head (below ++ [root]) = Some N →
  NoDup (below ++ [root]) →
  parent_chain g (below ++ [root]) →
  length below < fuel →
  node_transform g (descend g canvas (reverse (drop j (below ++ [root]))))
                 fuel (Some root) (Some N)
  = Some (Ok (map (λ e, transform (g e)) (reverse below))).
Proof.
  intros Hhd Hnd Hch Hfuel.
  apply node_transform_connected.
  apply (node_path_chain g _ fuel _ (take j (below ++ [root]))
                         (drop j (below ++ [root]))); try done.
  - by rewrite take_drop.
  - by rewrite last_snoc.
  - by apply descend_chain_on_stack.
  - rewrite length_app; simpl. lia.
Qed.

(** * Further properties of the stack operations *)

(** ** Viewboxes *)

(** X1: Pushing a viewbox makes it the current one; the pop that follows
    returns it and leaves the event as it was before the push. *)
Theorem push_pop_viewbox_restores s v :
  viewbox (snd (push_viewbox v s)) = Some v ∧
  pop_viewbox (snd (push_viewbox v s)) = (Ok v, s).
Proof.
  unfold viewbox, pop_viewbox, push_viewbox, bind, gets, lift, modify, ret; simpl.
  rewrite last_snoc, py_pop_snoc; simpl. split; [done|].
  by destruct s.
Qed.

(** ** Popping an empty stack *)

(** X2: Each of [pop_node], [pop_viewbox] and [pop_document] on its empty
    stack raises [IndexError] and leaves the event as it was. *)
Theorem pop_empty_raises g s :
  (_stack s = [] → pop_node g s = (Raise IndexError, s)) ∧
  (_viewbox_stack s = [] → pop_viewbox s = (Raise IndexError, s)) ∧
  (_doc_stack s = [] → pop_document s = (Raise IndexError, s)).
Proof.
  repeat split; intros H.
  - by apply pop_node_empty.
  - unfold pop_viewbox, bind, gets, lift; simpl. by rewrite H.
  - unfold pop_document, bind, gets, lift; simpl. by rewrite H.
Qed.

(** ** What the identity set records *)

Lemma size_list_to_set_le (l : list nat) :
  size (list_to_set (C := gset nat) l) ≤ length l.
Proof.
  induction l as [|x l IH].
  - by rewrite list_to_set_nil, size_empty.
  - rewrite list_to_set_cons, size_union_alt, size_singleton. simpl.
    assert (size (list_to_set (C := gset nat) l ∖ {[x]})
            ≤ size (list_to_set (C := gset nat) l))
      by (apply subseteq_size; set_solver).
    lia.
Qed.

(** X3: In every event that the stack operations can produce, also through
    operations that raised, each recorded identity belongs to a node on
    the stack, and the identity set is no larger than the stack. *)
Theorem recorded_identities_on_stack g s :
  reachable g s →
  (∀ x, x ∈ _stack_ids s → x ∈ _stack s) ∧
  size (_stack_ids s) ≤ length (_stack s).
Proof.
  intros Hr. assert (ids_on_stack s) as Hs.
  { destruct Hr as (cv & ops & ->). unfold run_ops.
    induction ops as [|o ops IH] using rev_ind.
    - intros x Hx. simpl in Hx. set_solver.
    - rewrite foldl_app; simpl. by apply run_op_ids_on_stack. }
  split; [done|].
  transitivity (size (list_to_set (C := gset nat) (_stack s))).
  - apply subseteq_size. intros x Hx. apply elem_of_list_to_set. by apply Hs.
  - apply size_list_to_set_le.
Qed.

Lemma recorded_identities_on_stack_witness :
  (∀ x, x ∈ _stack_ids (run_op demo_graph demo_event (PushNode 1))
        → x ∈ _stack (run_op demo_graph demo_event (PushNode 1))) ∧
  size (_stack_ids (run_op demo_graph demo_event (PushNode 1)))
  ≤ length (_stack (run_op demo_graph demo_event (PushNode 1))).
Proof.
  apply (recorded_identities_on_stack demo_graph).
  by exists demo_canvas, [PushNode 0; PushNode 1; PushNode 2; PushNode 1].
Defined.

(** ** Sequences of operations that all return *)

Lemma run_op_aligned g s o :
  stack_aligned g s → op_raises g s o = false → stack_aligned g (run_op g s o).
Proof.
  intros [Hc Hdoc] Hok. split; [by apply run_op_consistent|].
  destruct o as [n| |v|]; simpl in *.
  - destruct (decide (id n ∈ _stack_ids s)) as [Hn|Hn].
    + by rewrite push_node_recorded in Hok.
    + rewrite push_node_new by done; simpl.
      unfold stack_documents in *. rewrite omap_app; simpl.
      destruct (document (g n)); simpl; [by rewrite Hdoc|].
      by rewrite app_nil_r.
  - revert Hok. unfold pop_node, bind, gets, lift, modify; simpl.
    destruct (py_pop (_stack s)) as [[ent l]|e] eqn:Hpop; simpl; [|done].
    apply py_pop_Ok in Hpop.
    unfold stack_documents in *. rewrite Hpop, omap_app in Hdoc; simpl in Hdoc.
    unfold stack_ids_remove, bind, gets, modify; simpl.
    destruct (decide (id ent ∈ _stack_ids s)); simpl; [|done].
    destruct (document (g ent)) as [doc|]; simpl in *.
    + unfold pop_document, bind, gets, lift, modify; simpl.
      rewrite Hdoc, py_pop_snoc; simpl. by rewrite decide_True.
    + by rewrite app_nil_r in Hdoc.
  - done.
  - unfold pop_viewbox, bind, gets, lift, modify in *; simpl in *.
    by destruct (py_pop (_viewbox_stack s)) as [[d ds]|e].
Qed.

Lemma SceneEvent_init_aligned g canvas : stack_aligned g (SceneEvent_init canvas).
Proof. repeat split; [apply NoDup_nil_2 | done..]. Qed.

(** X4: A sequence of operations none of which raises keeps the identity set
    and the node stack in step: no node twice on the stack, the identity
    set exactly the nodes of the stack, and so as many identities as
    nodes. *)
Theorem returning_ops_keep_mirror g s ops :
  stack_consistent s → ops_return g s ops = true →
  stack_consistent (run_ops g s ops) ∧ stack_ids_mirror (run_ops g s ops).
Proof.
  intros Hc Hok.
  assert (stack_consistent (run_ops g s ops)) as H; [|split; [done|]].
  - revert s Hc Hok. induction ops as [|o ops IH]; intros s Hc Hok; [done|].
    simpl in *. apply andb_true_iff in Hok as [Ho Hops].
    apply IH; [|done]. apply run_op_consistent; [done|].
    by apply negb_true_iff.
  - destruct H as [Hnd Hids]. unfold stack_ids_mirror.
    by rewrite Hids, size_list_to_set.
Qed.

Lemma returning_ops_keep_mirror_witness :
  stack_consistent demo_event ∧ stack_ids_mirror demo_event.
Proof.
  apply (returning_ops_keep_mirror demo_graph (SceneEvent_init demo_canvas)
           [PushNode 0; PushNode 1; PushNode 2]).
  - split; [apply NoDup_nil_2 | reflexivity].
  - by vm_compute.
Defined.

(** X5: In an event built from a new one by operations none of which raised,
    the document stack holds exactly the documents declared by the nodes
    on the node stack, in stack order. *)
Theorem returning_ops_align_documents g canvas ops :
  ops_return g (SceneEvent_init canvas) ops = true →
  _doc_stack (run_ops g (SceneEvent_init canvas) ops)
  = stack_documents g (_stack (run_ops g (SceneEvent_init canvas) ops)).
Proof.
  intros Hok.
  assert (∀ s, stack_aligned g s → ops_return g s ops = true →
               stack_aligned g (run_ops g s ops)) as Hall.
  { clear Hok. induction ops as [|o ops IH]; intros s Ha Hok; [done|].
    simpl in *. apply andb_true_iff in Hok as [Ho Hops].
    apply IH; [|done]. apply run_op_aligned; [done|]. by apply negb_true_iff. }
  by apply Hall; [apply SceneEvent_init_aligned|].
Qed.

Lemma returning_ops_align_documents_witness :
  _doc_stack demo_event = stack_documents demo_graph (_stack demo_event).
Proof.
  apply (returning_ops_align_documents demo_graph demo_canvas
           [PushNode 0; PushNode 1; PushNode 2]).
  by vm_compute.
Defined.

(** ** Popping during a regular traversal *)

(** X6: On an event whose stacks agree, [pop_node] with a node on the stack
    returns the top node, and removes it, its identity and, if it
    declares one, its document: neither [KeyError] nor the assertion can
    fail, and the stacks agree afterwards. *)
Theorem pop_node_aligned g s l ent :
  stack_aligned g s → _stack s = l ++ [ent] →
  pop_node g s =
    (Ok ent,
     {| _canvas := _canvas s; _stack := l;
        _stack_ids := _stack_ids s ∖ {[id ent]};
        _viewbox_stack := _viewbox_stack s;
        _doc_stack := stack_documents g l |}) ∧
  stack_aligned g (snd (pop_node g s)).
Proof.
  intros Ha Hst.
  assert (op_raises g s PopNode = false ∧
          pop_node g s =
            (Ok ent,
             {| _canvas := _canvas s; _stack := l;
                _stack_ids := _stack_ids s ∖ {[id ent]};
                _viewbox_stack := _viewbox_stack s;
                _doc_stack := stack_documents g l |})) as [Hok Heq].
  { destruct Ha as [[Hnd Hids] Hdoc]. simpl.
    unfold pop_node, bind, gets, lift, modify; simpl.
    rewrite Hst, py_pop_snoc; simpl.
    unfold stack_ids_remove, bind, gets, modify; simpl.
    rewrite decide_True
      by (rewrite Hids, Hst, list_to_set_app_L; unfold id; set_solver).
    simpl. unfold stack_documents in *. rewrite Hst, omap_app in Hdoc.
    simpl in Hdoc.
    destruct (document (g ent)) as [doc|]; simpl in *.
    - unfold pop_document, bind, gets, lift, modify; simpl.
      rewrite Hdoc, py_pop_snoc; simpl. by rewrite decide_True.
    - rewrite app_nil_r in Hdoc. unfold ret, set_stack_ids, set_stack; simpl.
      by rewrite Hdoc. }
  split; [done|]. by apply (run_op_aligned g s PopNode).
Qed.

Lemma pop_node_aligned_witness :
  fst (pop_node demo_graph demo_event) = Ok 2 ∧
  _stack (snd (pop_node demo_graph demo_event)) = [0; 1] ∧
  stack_aligned demo_graph (snd (pop_node demo_graph demo_event)).
Proof.
  destruct (pop_node_aligned demo_graph demo_event [0; 1] 2) as [Heq Ha].
  - repeat split; [|by vm_compute..]. vm_compute. repeat constructor; set_solver.
  - reflexivity.
  - rewrite Heq in *. split; [done|]. split; [done | exact Ha].
Defined.

(** ** When the cycle error is raised *)

(** X7: On an event whose identity set is exactly its node stack, [push_node]
    raises the cycle error if the node is on the stack and returns
    otherwise. *)
Theorem push_node_raises_iff_on_stack g s n :
  stack_consistent s →
  fst (push_node g n s)
  = if decide (n ∈ _stack s) then Raise (RuntimeError (CycleDetected n))
    else Ok tt.
Proof.
  intros [_ Hids].
  assert (id n ∈ _stack_ids s ↔ n ∈ _stack s) as Hiff
    by (rewrite Hids; unfold id; set_solver).
  destruct (decide (n ∈ _stack s)) as [Hn|Hn].
  - by rewrite push_node_recorded by (by apply Hiff).
  - by rewrite push_node_new by (by rewrite Hiff).
Qed.

Lemma push_node_raises_iff_on_stack_witness :
  fst (push_node demo_graph 3 demo_event) = Ok tt.
Proof.
  rewrite (push_node_raises_iff_on_stack demo_graph demo_event 3).
  - rewrite decide_False; [done|]. vm_compute. set_solver.
  - split; [|by vm_compute]. vm_compute. repeat constructor; set_solver.
Defined.

(** ** Nested pushes and pops *)

Lemma run_ops_app g s ops1 ops2 :
  run_ops g s (ops1 ++ ops2) = run_ops g (run_ops g s ops1) ops2.
Proof. apply foldl_app. Qed.

Lemma ops_return_app g s ops1 ops2 :
  ops_return g s (ops1 ++ ops2)
  = ops_return g s ops1 && ops_return g (run_ops g s ops1) ops2.
Proof.
  revert s. induction ops1 as [|o ops1 IH]; intros s; [done|].
  simpl. rewrite IH. by rewrite andb_assoc.
Qed.

(** X8: Pushing the nodes of a path, none of them twice and none on the
    stack already, and then popping as many times: every operation
    returns and the event is as it was before the first push. *)
Theorem nested_pushes_and_pops_restore g nodes : ∀ s,
  ids_on_stack s → NoDup nodes → (∀ x, x ∈ nodes → x ∉ _stack s) →
  let ops := (PushNode <$> nodes) ++ replicate (length nodes) PopNode in
  ops_return g s ops = true ∧ run_ops g s ops = s.
Proof.
  induction nodes as [|x nodes IH]; intros s Hs Hnd Hfresh; [done|].
  cbv zeta in *. apply NoDup_cons in Hnd as [Hx Hnd].
  assert (id x ∉ _stack_ids s) as Hid.
  { intros H. apply Hs in H. by apply (Hfresh x); [set_solver|]. }
  assert (run_op g s (PushNode x) = snd (push_node g x s)) as Hrun by done.
  destruct (IH (snd (push_node g x s))) as [Hret Hrest]; [| done | |].
  { rewrite <- Hrun. by apply run_op_ids_on_stack. }
  { intros y Hy. rewrite push_node_new by done. simpl.
    intros [Hin|Hin]%elem_of_app; [by apply (Hfresh y); [set_solver|]|].
    set_solver. }
  assert ((PushNode <$> x :: nodes) ++ replicate (length (x :: nodes)) PopNode
          = [PushNode x]
            ++ ((PushNode <$> nodes) ++ replicate (length nodes) PopNode)
            ++ [PopNode]) as ->.
  { cbn [length]. rewrite replicate_S_end, fmap_cons. simpl.
    by rewrite <- app_assoc. }
  set (mid := (PushNode <$> nodes) ++ replicate (length nodes) PopNode) in *.
  rewrite !ops_return_app, !run_ops_app. simpl.
  rewrite Hrest, Hret. rewrite pop_node_pushed by done.
  rewrite push_node_new by done. done.
Qed.

Lemma nested_pushes_and_pops_restore_witness :
  run_ops demo_graph demo_event [PushNode 3; PushNode 4; PopNode; PopNode]
  = demo_event.
Proof.
  apply (nested_pushes_and_pops_restore demo_graph [3; 4] demo_event).
  - apply (reachable_ids_on_stack demo_graph).
    by exists demo_canvas, [PushNode 0; PushNode 1; PushNode 2].
  - repeat constructor; set_solver.
  - intros x Hx. change (_stack demo_event) with [0; 1; 2]. set_solver.
Defined.

(** ** Pops that fail half way *)

(** X9: When the top node is recorded and declares a document that is not
    the top of the document stack, [pop_node] raises [AssertionError]
    after it has removed the node, its identity and the top of the
    document stack. *)
Theorem pop_node_document_mismatch g s l ent doc ds d :
  _stack s = l ++ [ent] → id ent ∈ _stack_ids s →
  document (g ent) = Some doc → _doc_stack s = ds ++ [d] → d ≠ doc →
  pop_node g s =
    (Raise AssertionError,
     {| _canvas := _canvas s; _stack := l;
        _stack_ids := _stack_ids s ∖ {[id ent]};
        _viewbox_stack := _viewbox_stack s; _doc_stack := ds |}).
Proof.
  intros Hst Hid Hdoc Hds Hne.
  unfold pop_node, bind, gets, lift, modify; simpl.
  rewrite Hst, py_pop_snoc; simpl.
  unfold stack_ids_remove, bind, gets, modify; simpl.
  rewrite decide_True by done. simpl. rewrite Hdoc.
  unfold pop_document, bind, gets, lift, modify; simpl.
  rewrite Hds, py_pop_snoc; simpl. by rewrite decide_False by congruence.
Qed.

Lemma pop_node_document_mismatch_witness :
  let s := set_doc_stack [20; 21] (run_ops demo_graph (SceneEvent_init demo_canvas)
                                       [PushNode 0; PushNode 1]) in
  fst (pop_node demo_graph s) = Raise AssertionError ∧
  _stack (snd (pop_node demo_graph s)) = [0] ∧
  _doc_stack (snd (pop_node demo_graph s)) = [20].
Proof.
  cbv zeta.
  rewrite (pop_node_document_mismatch demo_graph _ [0] 1 20 [20] 21);
    [done | reflexivity | vm_compute; set_solver | reflexivity | reflexivity | done].
Defined.

(** X10: When the top node is recorded and declares a document while the
    document stack is empty, [pop_node] raises [IndexError] after it has
    removed the node and its identity. *)
Theorem pop_node_document_missing g s l ent doc :
  _stack s = l ++ [ent] → id ent ∈ _stack_ids s →
  document (g ent) = Some doc → _doc_stack s = [] →
  pop_node g s =
    (Raise IndexError,
     set_stack_ids (_stack_ids s ∖ {[id ent]}) (set_stack l s)).
Proof.
  intros Hst Hid Hdoc Hds.
  unfold pop_node, bind, gets, lift, modify; simpl.
  rewrite Hst, py_pop_snoc; simpl.
  unfold stack_ids_remove, bind, gets, modify; simpl.
  rewrite decide_True by done. simpl. rewrite Hdoc.
  unfold pop_document, bind, gets, lift, modify; simpl.
  by rewrite Hds.
Qed.

Lemma pop_node_document_missing_witness :
  let s := set_doc_stack [] (run_ops demo_graph (SceneEvent_init demo_canvas)
                                     [PushNode 0; PushNode 1]) in
  fst (pop_node demo_graph s) = Raise IndexError ∧
  _stack (snd (pop_node demo_graph s)) = [0].
Proof.
  cbv zeta.
  rewrite (pop_node_document_missing demo_graph _ [0] 1 20);
    [done | reflexivity | vm_compute; set_solver | reflexivity | reflexivity].
Defined.

(** ** After the cycle error *)

(** X11: When [push_node] has raised the cycle error for a recorded node, the
    [pop_node] that follows takes the node off the stack again but also
    removes its identity: whatever that pop returns or raises, the node
    stack is as before the push and the node, still on it, is no longer
    recorded. *)
Theorem pop_after_cycle_error_unrecords g s n :
  id n ∈ _stack_ids s →
  let s' := run_ops g s [PushNode n; PopNode] in
  op_raises g s (PushNode n) = true ∧
  _stack s' = _stack s ∧
  _stack_ids s' = _stack_ids s ∖ {[id n]}.
Proof.
  intros Hn. cbv zeta. unfold run_ops; simpl.
  rewrite push_node_recorded by done. simpl. split; [done|].
  unfold pop_node, bind, gets, lift, modify; simpl.
  rewrite py_pop_snoc; simpl.
  unfold stack_ids_remove, bind, gets, modify; simpl.
  rewrite decide_True by done. simpl.
  destruct (document (g n)) as [doc|]; simpl; [|done].
  unfold pop_document, bind, gets, lift, modify; simpl.
  destruct (py_pop (_doc_stack s)) as [[d ds]|e]; simpl; [|done].
  by destruct (decide (doc = d)).
Qed.

Lemma pop_after_cycle_error_unrecords_witness :
  _stack (run_ops demo_graph demo_event [PushNode 0; PopNode]) = [0; 1; 2] ∧
  0 ∉ _stack_ids (run_ops demo_graph demo_event [PushNode 0; PopNode]).
Proof.
  destruct (pop_after_cycle_error_unrecords demo_graph demo_event 0)
    as (_ & Hst & Hids).
  - vm_compute. set_solver.
  - split; [rewrite Hst; reflexivity|]. rewrite Hids.
    apply not_elem_of_difference. right. by apply elem_of_singleton.
Defined.

(** * Further properties of the path resolver *)

(** ** The path begins at [start] *)

Lemma walk_parents_prefix g s end_ fuel : ∀ n p w,
  walk_parents g s fuel end_ n p = Some w → p `prefix_of` walk_path w.
Proof.
  induction fuel as [|fuel IH]; intros n p w; [done|]. simpl.
  destruct (decide _); [by intros [= <-]|].
  destruct (_ || _); [by intros [= <-]|].
  intros H%IH. etrans; [|done]. by apply prefix_app_r.
Qed.

Lemma copy_stack_prefix s end_ ind1 : ∀ p q,
  copy_stack s end_ ind1 p = Ok q → p `prefix_of` q.
Proof.
  induction ind1 as [|m IH]; intros p q; simpl; [by intros [= <-]|].
  destruct (decide _); [by intros [= <-]|].
  destruct (py_getitem _ _) as [x|[]]; try done.
  - intros H%IH. etrans; [|done]. by apply prefix_app_r.
  - by intros [= <-].
Qed.

Lemma copy_stack_raises s end_ ind1 : ∀ p e,
  copy_stack s end_ ind1 p ≠ Raise e.
Proof.
  induction ind1 as [|m IH]; intros p e; simpl; [done|].
  destruct (decide _); [done|].
  assert (∀ A (l : list A) i x, py_getitem l i = Raise x → x = IndexError) as Hget.
  { intros A l i x. unfold py_getitem.
    destruct (_ <? _)%Z; [by intros [= <-]|].
    destruct (_ !! _); [done | by intros [= <-]]. }
  destruct (py_getitem _ _) as [x|x] eqn:E; [apply IH|].
  by rewrite (Hget _ _ _ _ E).
Qed.

(** X12: Whenever [_node_path] returns a path, the path begins with [start]:
    it is never empty. *)
Theorem node_path_begins_at_start g s fuel start end_ p :
  _node_path g s fuel start end_ = Some (Ok p) → ∃ rest, p = start :: rest.
Proof.
  unfold _node_path.
  destruct (walk_parents _ _ _ _ _ _) as [w|] eqn:Hw; [|done].
  apply walk_parents_prefix in Hw.
  assert ([start] `prefix_of` p → ∃ rest, p = start :: rest) as Hpre
    by (intros [rest ->]; by exists rest).
  destruct w as [q|n q]; simpl in Hw.
  - intros [= <-]. by apply Hpre.
  - destruct (decide _); [intros [= <-]; by apply Hpre|].
    destruct (py_index _ _) as [ind|[]]; try done.
    + intros H.
      assert (copy_stack s end_ (S ind) q = Ok p) as H' by congruence.
      apply copy_stack_prefix in H'. apply Hpre. by etrans.
    + intros [= <-]. by apply Hpre.
Qed.

Lemma node_path_begins_at_start_witness :
  ∃ rest, [3; 1; 0] = 3 :: rest.
Proof.
  apply (node_path_begins_at_start demo_graph demo_event 4 3 0 [3; 1; 0]).
  by vm_compute.
Defined.

(** [_node_path] raises nothing but the [ValueError] of [list.index]. *)
Lemma node_path_raises g s fuel start end_ e :
  _node_path g s fuel start end_ = Some (Raise e) → e = ValueError.
Proof.
  unfold _node_path.
  destruct (walk_parents _ _ _ _ _ _) as [[q|n q]|]; try done.
  destruct (decide _); [done|].
  assert (∀ l, ∀ x, py_index n l = Raise x → x = ValueError) as Hidx.
  { induction l as [|y l IH]; intros x; simpl; [by intros [= <-]|].
    destruct (decide _); [done|].
    destruct (py_index n l) as [i|x']; [done|]. intros [= <-]. by apply IH. }
  destruct (py_index _ _) as [ind|x] eqn:E.
  - intros H.
    assert (copy_stack s end_ (S ind) q = Raise e) as H' by congruence.
    by apply copy_stack_raises in H'.
  - rewrite (Hidx _ _ E). by intros [= <-].
Qed.

(** ** Cycles of parents *)

(** X13: On nodes that are not recorded, none of them [end], each with exactly
    one parent that is again one of them, the walk of [_node_path] never
    ends: whatever the fuel, no result is reached. *)
Theorem node_path_parent_cycle_never_returns g s (P : node → Prop) start end_ :
  (∀ x, P x → (id x ∉ _stack_ids s) ∧ x ≠ end_ ∧
              ∃ y, parents (g x) = [y] ∧ P y) →
  P start →
  ∀ fuel, _node_path g s fuel start end_ = None.
Proof.
  intros Hcyc Hstart fuel. unfold _node_path.
  assert (∀ n p, P n → walk_parents g s fuel end_ n p = None) as ->; try done.
  induction fuel as [|fuel IH]; intros n p Hn; [done|]. simpl.
  destruct (Hcyc n Hn) as (Hid & Hne & y & Hpar & Hy).
  rewrite decide_False by done. rewrite bool_decide_eq_false_2 by done.
  rewrite Hpar. simpl. unfold parent. rewrite Hpar. by apply IH.
Qed.

Lemma node_path_parent_cycle_never_returns_witness :
  _node_path loop_graph (SceneEvent_init demo_canvas) 100 5 6 = None.
Proof.
  apply (node_path_parent_cycle_never_returns loop_graph _ (λ x, x = 5)).
  - intros x ->. split; [simpl; set_solver|]. split; [done|]. by exists 5.
  - reflexivity.
Defined.

(** ** Following the stack *)

Lemma node_path_off_bottom_witness :
  _node_path demo_graph demo_event 1 1 3 = Some (Ok [1; 0; 2]).
Proof.
  apply (node_path_off_bottom demo_graph demo_event 3 0 1 [0] [2] 2).
  - vm_compute. set_solver.
  - done.
  - reflexivity.
  - set_solver.
  - set_solver.
  - reflexivity.
Defined.

(** From a recorded node to a node below it on a stack without
    repetition, the path is the piece of the stack between them, whatever
    the parents of the nodes are. *)
Lemma node_path_down_the_stack g s fuel below end_ mid n above :
  stack_consistent s → _stack s = below ++ end_ :: mid ++ n :: above →
  _node_path g s (S fuel) n end_ = Some (Ok ((n :: reverse mid) ++ [end_])).
Proof.
  intros [Hnd Hids] Hst.
  assert (id n ∈ _stack_ids s) as Hn
    by (rewrite Hids, Hst; unfold id; set_solver).
  rewrite Hst in Hnd.
  replace (below ++ end_ :: mid ++ n :: above)
    with ((below ++ end_ :: mid) ++ n :: above) in Hnd, Hst
    by (by rewrite <- app_assoc).
  apply NoDup_app in Hnd as (Hlow & Hdis & _).
  assert (n ∉ below ++ end_ :: mid) as Hfirst
    by (intros H; apply (Hdis n H); set_solver).
  apply NoDup_app in Hlow as (_ & _ & Hlow).
  apply NoDup_cons in Hlow as [Hend Hmid].
  assert (n ≠ end_) as Hne by set_solver.
  unfold _node_path; cbn -[copy_stack].
  rewrite decide_True by done. cbn -[copy_stack].
  rewrite decide_False by congruence.
  rewrite Hst at 1. rewrite py_index_first by done.
  pose proof (copy_stack_chain s end_ (reverse mid ++ [end_]) n []
                below (n :: above)) as Hcopy.
  rewrite reverse_app, reverse_involutive in Hcopy. simpl in Hcopy.
  simpl. rewrite Hcopy; [done| | |].
  - rewrite Hst. by rewrite <- app_assoc.
  - apply NoDup_cons. split; [set_solver|].
    apply NoDup_app. split; [by rewrite reverse_Permutation|].
    split; [|apply NoDup_singleton].
    intros x Hx%elem_of_reverse. set_solver.
  - by rewrite app_comm_cons, last_snoc.
Qed.

(** X15: From a node on a stack without repetition to a node below it,
    [node_transform] returns the transforms of the nodes above the target
    up to the source, in stack order, whatever the parents of the nodes
    are: a node with several parents is resolved by the stack. *)
Theorem node_transform_follows_stack g s fuel below end_ mid n above :
  stack_consistent s → _stack s = below ++ end_ :: mid ++ n :: above →
  node_transform g s (S fuel) (Some end_) (Some n)
  = Some (Ok (map (λ e, transform (g e)) (mid ++ [n]))).
Proof.
  intros Hc Hst.
  rewrite (node_transform_connected g s (S fuel) n end_ (n :: reverse mid)).
  - by rewrite reverse_cons, reverse_involutive.
  - by apply (node_path_down_the_stack g s fuel below end_ mid n above).
Qed.

Lemma node_transform_follows_stack_witness :
  parents (diamond_graph 3) = [1; 2] ∧
  node_transform diamond_graph diamond_event 1 (Some 0) (Some 3)
  = Some (Ok [BaseTransform 1; BaseTransform 3]).
Proof.
  split; [reflexivity|].
  apply (node_transform_follows_stack diamond_graph diamond_event 0 [] 0 [1] 3 []).
  - split; [|by vm_compute]. vm_compute. repeat constructor; set_solver.
  - reflexivity.
Defined.

(** ** The full transform *)

(** X16: During a traversal that pushed a path of distinct nodes,
    [node_transform] from the current node to the first node of the path
    is [get_full_transform] without its first element, the transform of
    that first node. *)
Theorem node_transform_is_full_transform_below_root g canvas fuel root rest :
  NoDup (root :: rest) →
  node_transform g (descend g canvas (root :: rest)) (S fuel) (Some root) None
  = Some (Ok (drop 1 (get_full_transform g (descend g canvas (root :: rest))))).
Proof.
  intros Hnd. destruct (descend_stack g canvas _ Hnd) as [Hst Hids].
  unfold get_full_transform, TransformCache_get. rewrite Hst. simpl.
  destruct rest as [|x rest _] using rev_ind.
  - unfold node_transform, _node_path. rewrite Hst. simpl.
    rewrite decide_True by (rewrite Hids; unfold id; set_solver).
    simpl. rewrite decide_True by done. simpl. by rewrite decide_True.
  - assert (node_transform g (descend g canvas (root :: rest ++ [x])) (S fuel)
              (Some root) None
            = node_transform g (descend g canvas (root :: rest ++ [x])) (S fuel)
                (Some root) (Some x)) as ->.
    { unfold node_transform. rewrite Hst.
      by rewrite (py_getitem_top (root :: rest ++ [x]) x)
        by (by rewrite app_comm_cons, last_snoc). }
    rewrite (node_transform_connected g _ (S fuel) x root (x :: reverse rest)).
    + by rewrite reverse_cons, reverse_involutive.
    + apply (node_path_down_the_stack g _ fuel [] root rest x []); [|by rewrite Hst].
      split; [by rewrite Hst | by rewrite Hst].
Qed.

Lemma node_transform_is_full_transform_below_root_witness :
  get_full_transform demo_graph demo_event
  = [BaseTransform 0; BaseTransform 1; BaseTransform 2] ∧
  node_transform demo_graph demo_event 1 (Some 0) None
  = Some (Ok [BaseTransform 1; BaseTransform 2]).
Proof.
  split; [reflexivity|].
  apply (node_transform_is_full_transform_below_root demo_graph demo_canvas 0 0 [1; 2]).
  repeat constructor; set_solver.
Defined.

(** ** Events without recorded identities *)

Lemma walk_parents_unrecorded g s s' end_ fuel : ∀ n p,
  _stack_ids s = ∅ → _stack_ids s' = ∅ →
  walk_parents g s fuel end_ n p = walk_parents g s' fuel end_ n p ∧
  ∀ m q, walk_parents g s fuel end_ n p ≠ Some (OnStack m q).
Proof.
  intros n p Hs Hs'. revert n p.
  induction fuel as [|fuel IH]; intros n p; [done|]. simpl.
  destruct (decide (id n ∈ _stack_ids s)) as [H|_]; [rewrite Hs in H; set_solver|].
  destruct (decide (id n ∈ _stack_ids s')) as [H|_]; [rewrite Hs' in H; set_solver|].
  destruct (_ || _); [done|]. apply IH.
Qed.

(** X17: On the copy of a mouse event, [_node_path] does not use the copied
    node stack: it returns what it returns on a new event, the walk along
    single parents. *)
Theorem node_path_on_copy_ignores_stack g ev fuel start end_ :
  _node_path g (scene (copy ev)) fuel start end_
  = _node_path g (SceneEvent_init (_canvas (scene ev))) fuel start end_.
Proof.
  unfold _node_path.
  destruct (walk_parents_unrecorded g (scene (copy ev))
              (SceneEvent_init (_canvas (scene ev))) end_ fuel start [start])
    as [Heq Hno]; [done..|].
  rewrite <- Heq.
  destruct (walk_parents _ _ _ _ _ _) as [[q|m q]|]; try done.
  by destruct (Hno m q).
Qed.

(** ** An event with nothing pushed *)

Lemma py_getitem_raises {A} (l : list A) i e :
  py_getitem l i = Raise e → e = IndexError.
Proof.
  unfold py_getitem. destruct (_ <? _)%Z; [by intros [= <-]|].
  destruct (_ !! _); [done | by intros [= <-]].
Qed.

Lemma py_getitem_reverse_0 {A} (l : list A) x :
  last l = Some x → py_getitem (reverse l) 0 = Ok x.
Proof.
  destruct l as [|y l _] using rev_ind; [done|].
  rewrite last_snoc. intros [= ->]. by rewrite reverse_snoc.
Qed.

(** X18: While the node stack is empty, [node_transform] never raises the
    no-path error.  With [map_from] left out it raises [IndexError], when
    it reads the top of the stack; and whenever the forward path is
    returned and does not end at [map_to], it raises [IndexError], when
    it reads the bottom of the stack. *)
Theorem node_transform_empty_stack_no_path_error g s fuel map_to map_from :
  _stack s = [] →
  (∀ msg, node_transform g s fuel map_to map_from
          ≠ Some (Raise (RuntimeError msg))) ∧
  (map_from = None →
   node_transform g s fuel map_to map_from = Some (Raise IndexError)) ∧
  (∀ a p x,
     map_from = Some a →
     _node_path g s fuel a (default (render_cs (_canvas s)) map_to)
     = Some (Ok p) →
     last p = Some x → x ≠ default (render_cs (_canvas s)) map_to →
     node_transform g s fuel map_to map_from = Some (Raise IndexError)).
Proof.
  intros Hst. repeat split.
  - intros msg. unfold node_transform. rewrite Hst.
    destruct map_from as [a|]; [|done].
    destruct (_node_path g s fuel a _) as [[p|e]|] eqn:Hp; [| |done].
    + destruct (py_getitem (reverse p) 0) as [x|e] eqn:Hx.
      * by destruct (decide _).
      * apply py_getitem_raises in Hx. by subst e.
    + apply node_path_raises in Hp. by subst e.
  - intros ->. unfold node_transform. by rewrite Hst.
  - intros a p x -> Hp Hx Hne. unfold node_transform. rewrite Hst, Hp.
    cbv zeta. rewrite (py_getitem_reverse_0 p x Hx).
    by rewrite decide_False by done.
Qed.

Lemma node_transform_empty_stack_no_path_error_witness :
  node_transform demo_graph (SceneEvent_init demo_canvas) 3 (Some 3) (Some 0)
  = Some (Raise IndexError) ∧
  node_transform demo_graph (SceneEvent_init demo_canvas) 3 (Some 3) (Some 0)
  ≠ Some (Raise (RuntimeError (NoUniquePath 0 3))).
Proof.
  destruct (node_transform_empty_stack_no_path_error demo_graph
              (SceneEvent_init demo_canvas) 3 (Some 3) (Some 0))
    as (Hno & _ & Hidx); [reflexivity|].
  split; [|apply Hno].
  by apply (Hidx 0 [0] 0).
Defined.

(** * Further properties of [node_transform] *)

(** ** When the forward path does not reach [map_to] *)

Lemma node_transform_two_sided g s fuel a b p x r q :
  _node_path g s fuel a b = Some (Ok p) → last p = Some x → x ≠ b →
  _stack s !! 0 = Some r →
  _node_path g s fuel b r = Some (Ok q) →
  node_transform g s fuel (Some b) (Some a)
  = match join_search (reverse p) (seq 1 (length q - 1)) q false with
    | Raise e => Some (Raise e)
    | Ok (rev_path, connected) =>
        if connected then Some (Ok (assemble g (reverse p) rev_path))
        else Some (Raise (RuntimeError (NoUniquePath a b)))
    end.
Proof.
  intros Hp Hx Hne Hr Hq. unfold node_transform; simpl.
  rewrite Hp. cbv zeta. rewrite (py_getitem_reverse_0 p x Hx).
  rewrite decide_False by done.
  pose proof (py_getitem_nat _ 0 r Hr) as H0.
  change (Z.of_nat 0) with 0%Z in H0. rewrite H0. by rewrite Hq.
Qed.

Section TwoSided.
Context (g : scenegraph) (s : SceneEvent) (fuel : nat).
Context (a b x r : node) (p q : list node).
Hypothesis Hfwd : _node_path g s fuel a b = Some (Ok p).
Hypothesis Hlast : last p = Some x.
Hypothesis Hne : x ≠ b.
Hypothesis Hroot : _stack s !! 0 = Some r.
Hypothesis Hrev : _node_path g s fuel b r = Some (Ok q).

(** X19: The forward path from [map_from] ends at a node other than [map_to],
    and the path from [map_to] towards the bottom of the stack has, from
    its second node on, no node of the forward path: [node_transform]
    raises the no-path error. *)
Theorem node_transform_no_join :
  (∀ j y, 1 ≤ j → q !! j = Some y → y ∉ p) →
  node_transform g s fuel (Some b) (Some a)
  = Some (Raise (RuntimeError (NoUniquePath a b))).
Proof using Hfwd Hlast Hne Hroot Hrev.
  intros Hno.
  rewrite (node_transform_two_sided g s fuel a b p x r q) by done.
  rewrite join_search_none; [done|].
  intros j y Hj Hy. rewrite elem_of_reverse. by apply (Hno j).
Qed.

(** X20: The first node of the path from [map_to] that is on the forward path
    is its last node: [node_transform] returns the transforms of the
    forward path, last node first, followed by the inverted transforms of
    the path from [map_to] without that last node. *)
Theorem node_transform_join_at_end init y :
  q = init ++ [y] → init ≠ [] → y ∈ p →
  (∀ j z, 1 ≤ j → init !! j = Some z → z ∉ p) →
  node_transform g s fuel (Some b) (Some a)
  = Some (Ok (map (λ e, transform (g e)) (reverse p)
              ++ map (λ e, inverse (transform (g e))) init)).
Proof using Hfwd Hlast Hne Hroot Hrev.
  intros -> Hinit Hy Hno.
  rewrite (node_transform_two_sided g s fuel a b p x r (init ++ [y])) by done.
  rewrite join_search_last; [done | done | by rewrite elem_of_reverse |].
  intros j z Hj Hz. rewrite elem_of_reverse. by apply (Hno j).
Qed.

(** X21: The first node of the path from [map_to] that is on the forward path
    is not its last node: [node_transform] raises [IndexError]. *)
Theorem node_transform_join_before_end init y z rest :
  q = init ++ y :: z :: rest → init ≠ [] → y ∈ p →
  (∀ j w, 1 ≤ j → init !! j = Some w → w ∉ p) →
  node_transform g s fuel (Some b) (Some a) = Some (Raise IndexError).
Proof using Hfwd Hlast Hne Hroot Hrev.
  intros -> Hinit Hy Hno.
  rewrite (node_transform_two_sided g s fuel a b p x r
             (init ++ y :: z :: rest)) by done.
  rewrite join_search_not_last; [done | done | by rewrite elem_of_reverse |].
  intros j w Hj Hw. rewrite elem_of_reverse. by apply (Hno j).
Qed.

End TwoSided.

Lemma node_transform_no_join_witness :
  node_transform demo_graph demo_subtree_event 2 (Some 0) (Some 2)
  = Some (Raise (RuntimeError (NoUniquePath 2 0))).
Proof.
  apply (node_transform_no_join demo_graph demo_subtree_event 2 2 0 2 1
           [2; 1; 2] [0]); try by vm_compute.
  intros [|[|j]] y Hj; [lia|done..].
Defined.

Lemma node_transform_join_at_end_witness :
  node_transform diamond_graph diamond_event 2 (Some 2) (Some 3)
  = Some (Ok [BaseTransform 3; BaseTransform 0; BaseTransform 1;
               BaseTransform 3; InverseTransform (BaseTransform 2)]).
Proof.
  apply (node_transform_join_at_end diamond_graph diamond_event 2 3 2 3 0
           [3; 1; 0; 3] [2; 0]) with (init := [2]) (y := 0); try by vm_compute.
  - set_solver.
  - intros [|[|j]] z Hj; [lia|done..].
Defined.

Lemma node_transform_join_before_end_witness :
  node_transform demo_graph demo_event 2 (Some 3) (Some 2)
  = Some (Raise IndexError).
Proof.
  apply (node_transform_join_before_end demo_graph demo_event 2 2 3 2 0
           [2; 1; 0; 2] [3; 1; 0]) with (init := [3]) (y := 1) (z := 0) (rest := []);
    try by vm_compute.
  - set_solver.
  - intros [|[|j]] z Hj; [lia|done..].
Defined.

(** * Further properties of the frames and of the mouse events *)

(** ** The document frame during a traversal *)

Lemma descend_doc_stack g canvas path :
  NoDup path →
  _doc_stack (descend g canvas path) = stack_documents g path ∧
  _canvas (descend g canvas path) = canvas.
Proof.
  intros Hnd. destruct (descend_stack g canvas path Hnd) as [Hst Hids].
  revert Hnd Hst Hids. unfold descend, run_ops.
  induction path as [|x path IH] using rev_ind; intros Hnd Hst Hids; [done|].
  apply NoDup_app in Hnd as (Hnd & Hdis & _).
  destruct (descend_stack g canvas path Hnd) as [Hst' Hids'].
  destruct (IH Hnd Hst' Hids') as [Hdoc Hcv].
  rewrite fmap_app, foldl_app; simpl.
  rewrite push_node_new.
  - simpl. unfold stack_documents in *. rewrite omap_app; simpl.
    split; [|done].
    destruct (document (g x)); simpl; [by rewrite Hdoc|].
    by rewrite app_nil_r.
  - unfold descend, run_ops in Hids'. rewrite Hids'. unfold id.
    intros Hx%elem_of_list_to_set. apply (Hdis x Hx). set_solver.
Qed.

(** X22: During a traversal that pushed a path of distinct nodes,
    [document_cs] is the document declared by the deepest node of the
    path that declares one, and the canvas frame when none does. *)
Theorem document_cs_during_traversal g canvas path :
  NoDup path →
  document_cs (descend g canvas path)
  = default (canvas_cs canvas) (last (stack_documents g path)).
Proof.
  intros Hnd. destruct (descend_doc_stack g canvas path Hnd) as [Hdoc Hcv].
  unfold document_cs. rewrite Hdoc, Hcv.
  by destruct (last (stack_documents g path)).
Qed.

Lemma document_cs_during_traversal_witness :
  document_cs demo_event = 20 ∧
  document_cs (descend demo_graph demo_canvas [0]) = 10.
Proof.
  split.
  - apply (document_cs_during_traversal demo_graph demo_canvas [0; 1; 2]).
    repeat constructor; set_solver.
  - apply (document_cs_during_traversal demo_graph demo_canvas [0]).
    repeat constructor; set_solver.
Defined.

(** ** Scene and view transforms *)

Lemma node_transform_refl g s fuel A :
  node_transform g s (S fuel) (Some A) (Some A) = Some (Ok []).
Proof.
  unfold node_transform, _node_path; simpl.
  destruct (decide (id A ∈ _stack_ids s)); simpl.
  - rewrite decide_True by done. simpl. by rewrite decide_True.
  - rewrite bool_decide_eq_true_2 by done. simpl. by rewrite decide_True.
Qed.

(** X23: With fewer than two viewboxes on the viewbox stack, with exactly one
    in particular, [scene_transform] and [view_transform] return [None]
    and nothing is resolved. *)
Theorem view_transforms_need_two_viewboxes g scene_of s fuel :
  length (_viewbox_stack s) ≤ 1 →
  scene_transform g scene_of s fuel = Some (Ok None) ∧
  view_transform g s fuel = Some (Ok None).
Proof.
  intros Hlen. unfold scene_transform, view_transform.
  by rewrite !decide_False by lia.
Qed.

Lemma view_transforms_need_two_viewboxes_witness :
  view_transform demo_graph (snd (push_viewbox 1 demo_event)) 3 = Some (Ok None).
Proof.
  apply (view_transforms_need_two_viewboxes demo_graph (λ v, v)
           (snd (push_viewbox 1 demo_event)) 3).
  vm_compute. lia.
Defined.

(** X24: With two or more viewboxes on the viewbox stack and the innermost
    one on top of the node stack, [view_transform] is the empty chain. *)
Theorem view_transform_at_viewbox g s fuel view :
  1 < length (_viewbox_stack s) →
  last (_viewbox_stack s) = Some view → last (_stack s) = Some view →
  view_transform g s (S fuel) = Some (Ok (Some [])).
Proof.
  intros Hlen Hview Htop. unfold view_transform.
  rewrite decide_True by done. rewrite (py_getitem_top _ view Hview).
  assert (node_transform g s (S fuel) (Some view) None
          = node_transform g s (S fuel) (Some view) (Some view)) as ->.
  { unfold node_transform. by rewrite (py_getitem_top _ view Htop). }
  by rewrite node_transform_refl.
Qed.

Lemma view_transform_at_viewbox_witness :
  view_transform demo_graph
    (run_ops demo_graph (SceneEvent_init demo_canvas)
       [PushViewbox 0; PushNode 0; PushViewbox 1; PushNode 1]) 1
  = Some (Ok (Some [])).
Proof.
  apply (view_transform_at_viewbox demo_graph _ 0 1).
  - vm_compute. lia.
  - reflexivity.
  - reflexivity.
Defined.

(** X25: With two or more viewboxes on the viewbox stack and no node on the
    node stack, both getters raise [IndexError]: the source of the
    transform is the top of the node stack. *)
Theorem view_transforms_need_a_node g scene_of s fuel :
  1 < length (_viewbox_stack s) → _stack s = [] →
  scene_transform g scene_of s fuel = Some (Raise IndexError) ∧
  view_transform g s fuel = Some (Raise IndexError).
Proof.
  intros Hlen Hst. unfold scene_transform, view_transform.
  rewrite !decide_True by done.
  destruct (last (_viewbox_stack s)) as [view|] eqn:Hview.
  - rewrite (py_getitem_top _ view Hview).
    unfold node_transform. by rewrite Hst.
  - apply last_None in Hview. rewrite Hview in Hlen. simpl in Hlen. lia.
Qed.

Lemma view_transforms_need_a_node_witness :
  view_transform demo_graph
    (run_ops demo_graph (SceneEvent_init demo_canvas)
       [PushViewbox 0; PushViewbox 1]) 3
  = Some (Raise IndexError).
Proof.
  apply (view_transforms_need_a_node demo_graph (λ v, v)
           (run_ops demo_graph (SceneEvent_init demo_canvas)
              [PushViewbox 0; PushViewbox 1]) 3).
  - vm_compute. lia.
  - reflexivity.
Defined.

(** ** The frames of the canvas *)

(** X26: When the canvas frame has the buffer frame as its only parent and
    the buffer frame the render frame, the three being distinct and not
    recorded, then on an event with an empty document stack
    [document_to_buffer] is the transform of the canvas frame and
    [buffer_to_render] the transform of the buffer frame. *)
Theorem canvas_frame_transforms g s fuel :
  let cv := _canvas s in
  _doc_stack s = [] →
  NoDup [canvas_cs cv; buffer_cs cv; render_cs cv] →
  parent_chain g [canvas_cs cv; buffer_cs cv; render_cs cv] →
  (∀ x, x ∈ [canvas_cs cv; buffer_cs cv; render_cs cv] → id x ∉ _stack_ids s) →
  document_to_buffer g s (S (S fuel)) = Some (Ok [transform (g (canvas_cs cv))]) ∧
  buffer_to_render g s (S (S fuel)) = Some (Ok [transform (g (buffer_cs cv))]).
Proof.
  cbv zeta. intros Hdoc Hnd [Hc [Hb _]] Hun.
  apply NoDup_cons in Hnd as [Hcb Hnd].
  unfold document_to_buffer, buffer_to_render, document_cs. rewrite Hdoc. simpl.
  split.
  - apply (node_transform_connected g s _ _ _ [canvas_cs (_canvas s)]).
    apply (node_path_chain g s _ _ [canvas_cs (_canvas s); buffer_cs (_canvas s)] []);
      try done.
    + apply NoDup_cons. split; [set_solver | apply NoDup_singleton].
    + split; [|done]. intros x Hx. apply Hun. set_solver.
    + simpl. lia.
  - apply (node_transform_connected g s _ _ _ [buffer_cs (_canvas s)]).
    apply (node_path_chain g s _ _ [buffer_cs (_canvas s); render_cs (_canvas s)] []);
      try done.
    + split; [|done]. intros x Hx. apply Hun. set_solver.
    + simpl. lia.
Qed.

Lemma canvas_frame_transforms_witness :
  document_to_buffer frames_graph (descend frames_graph demo_canvas [0; 1]) 2
  = Some (Ok [BaseTransform 10]) ∧
  buffer_to_render frames_graph (descend frames_graph demo_canvas [0; 1]) 2
  = Some (Ok [BaseTransform 11]).
Proof.
  apply (canvas_frame_transforms frames_graph
           (descend frames_graph demo_canvas [0; 1]) 0).
  - reflexivity.
  - vm_compute. repeat constructor; set_solver.
  - by vm_compute.
  - intros x Hx. vm_compute in Hx. vm_compute. set_solver.
Defined.

(** ** Copies and earlier events *)

(** Copying a copy gives the copy again. *)
Theorem copy_idempotent ev : copy (copy ev) = copy ev.
Proof. reflexivity. Qed.

(** X27: The event that [last_event] or [press_event] returns has the path
    and the viewbox stack of the event it was read from, but no recorded
    identity and no document: its document frame is the canvas frame,
    also when the event it was read from stood inside a document. *)
Theorem earlier_event_loses_document mouse ev ev' :
  last_event mouse ev = Some ev' ∨ press_event mouse ev = Some ev' →
  path (scene ev') = path (scene ev) ∧
  _viewbox_stack (scene ev') = _viewbox_stack (scene ev) ∧
  _stack_ids (scene ev') = ∅ ∧
  document_cs (scene ev') = canvas_cs (_canvas (scene ev)).
Proof.
  unfold last_event, press_event.
  intros [H|H].
  - destruct (MouseEvent_last_event _); [|done]. by injection H as <-.
  - destruct (MouseEvent_press_event _); [|done]. by injection H as <-.
Qed.

Lemma earlier_event_loses_document_witness :
  let mouse := λ _, {| MouseEvent_last_event := Some 6;
                       MouseEvent_press_event := None |} in
  let ev := {| mouse_event := 7; scene := demo_event |} in
  document_cs (scene ev) = 20 ∧
  ∃ ev', last_event mouse ev = Some ev' ∧ document_cs (scene ev') = 10.
Proof.
  cbv zeta. split; [reflexivity|].
  eexists. split; [reflexivity|].
  eapply (earlier_event_loses_document
            (λ _, {| MouseEvent_last_event := Some 6;
                     MouseEvent_press_event := None |})
            {| mouse_event := 7; scene := demo_event |}).
  left. reflexivity.
Defined.

(** * Further properties of the mesh-normals constructor *)

(** X28: With [length] left out and a [length_method] that is neither
    ['median_edge'] nor ['max_extent'], the constructor of a valid
    primitive raises [TypeError] when it scales the length, which is
    still [None], after fetching the normals and nothing else from
    [meshdata] (the arithmetic on the normals is taken to raise
    nothing). *)
Theorem init_unknown_length_method {V : Type} (imul : V → V → result V)
    (median max_extent : V) (finish : V → result unit)
    primitive length_method length_scale :
  primitive = "face"%string ∨ primitive = "vertex"%string →
  length_method ≠ MeshNormals.PyStr "median_edge" →
  length_method ≠ MeshNormals.PyStr "max_extent" →
  MeshNormals.init imul median max_extent finish
    (MeshNormals.PyStr primitive) None length_method length_scale
  = (Raise TypeError,
     [if decide (primitive = "face"%string) then MeshNormals.get_face_normals
      else MeshNormals.get_vertex_normals]).
Proof.
  intros Hp Hm1 Hm2. unfold MeshNormals.init.
  assert (MeshNormals.py_eq_str length_method "median_edge" = false) as ->.
  { destruct length_method; try done. simpl. apply bool_decide_eq_false_2. congruence. }
  assert (MeshNormals.py_eq_str length_method "max_extent" = false) as ->.
  { destruct length_method; try done. simpl. apply bool_decide_eq_false_2. congruence. }
  by destruct Hp as [-> | ->].
Qed.

Lemma init_unknown_length_method_witness :
  MeshNormals.init MeshNormals.demo_imul MeshNormals.FloatLength
    MeshNormals.FloatLength MeshNormals.demo_finish
    (MeshNormals.PyStr "vertex") None (MeshNormals.PyStr "mean_edge")
    MeshNormals.FloatLength
  = (Raise TypeError, [MeshNormals.get_vertex_normals]).
Proof.
  apply (init_unknown_length_method MeshNormals.demo_imul MeshNormals.FloatLength
           MeshNormals.FloatLength MeshNormals.demo_finish
           "vertex" (MeshNormals.PyStr "mean_edge") MeshNormals.FloatLength);
    [by right | done..].
Defined.

(** X29: With a [length] that is not [None], [length_method] is not
    looked at.  The constructor of a valid primitive fetches the normals
    and evaluates [length *= length_scale]: when that raises, the
    exception is the constructor's, after this one call on [meshdata];
    otherwise the vertices are fetched, indexed by faces for ['face'],
    as the second and last call, and the outcome is that of building the
    segments from the scaled length. *)
Theorem init_length_given_ignores_method {V : Type} (imul : V → V → result V)
    (median max_extent : V) (finish : V → result unit)
    primitive (length : V) length_method length_scale :
  primitive = "face"%string ∨ primitive = "vertex"%string →
  MeshNormals.init imul median max_extent finish
    (MeshNormals.PyStr primitive) (Some length) length_method length_scale
  = let normals :=
      if decide (primitive = "face"%string) then MeshNormals.get_face_normals
      else MeshNormals.get_vertex_normals in
    match imul length length_scale with
    | Raise e => (Raise e, [normals])
    | Ok scaled =>
        (finish scaled,
         [normals;
          MeshNormals.get_vertices (bool_decide (primitive = "face"%string))])
    end.
Proof.
  intros [-> | ->]; unfold MeshNormals.init; simpl;
    by destruct (imul length length_scale).
Qed.

Lemma init_length_given_ignores_method_witness :
  MeshNormals.init MeshNormals.demo_imul MeshNormals.FloatLength
    MeshNormals.FloatLength MeshNormals.demo_finish
    (MeshNormals.PyStr "face") (Some MeshNormals.ListLength)
    (MeshNormals.PyStr "no such method") MeshNormals.FloatLength
  = (Raise TypeError, [MeshNormals.get_face_normals]) ∧
  MeshNormals.init MeshNormals.demo_imul MeshNormals.FloatLength
    MeshNormals.FloatLength MeshNormals.demo_finish
    (MeshNormals.PyStr "face") (Some MeshNormals.FloatLength)
    (MeshNormals.PyStr "no such method") MeshNormals.FloatLength
  = (Ok tt, [MeshNormals.get_face_normals; MeshNormals.get_vertices true]).
Proof.
  split.
  - apply (init_length_given_ignores_method MeshNormals.demo_imul
             MeshNormals.FloatLength MeshNormals.FloatLength
             MeshNormals.demo_finish "face" MeshNormals.ListLength
             (MeshNormals.PyStr "no such method") MeshNormals.FloatLength).
    by left.
  - apply (init_length_given_ignores_method MeshNormals.demo_imul
             MeshNormals.FloatLength MeshNormals.FloatLength
             MeshNormals.demo_finish "face" MeshNormals.FloatLength
             (MeshNormals.PyStr "no such method") MeshNormals.FloatLength).
    by left.
Defined.

(** From node [3], which the traversal has not reached, while the
    traversal stands at node [1]. *)
Lemma node_transform_during_traversal_witness :
  node_transform demo_graph
    (descend demo_graph demo_canvas (reverse (drop 1 ([3; 1] ++ [0]))))
    3 (Some 0) (Some 3)
  = Some (Ok [BaseTransform 1; BaseTransform 3]).
Proof.
  apply (node_transform_during_traversal demo_graph demo_canvas 3 3 0 [3; 1] 1).
  - reflexivity.
  - repeat constructor; set_solver.
  - by simpl.
  - simpl. lia.
Defined.
